(** * image-augmentor: the padded-canvas augmentation pipeline

    A shallow embedding of [applyTransformations] and its helpers
    ([getRandomInRange], [transposeImage], [cropToCenter]) together with the
    properties of the pipeline.

    Modelling conventions.
    - JavaScript numbers are exact rationals ([Q]); quantities that the source
      keeps integral (pixel sizes, rounded offsets) are [Z].
    - [Math.random()] reads the next value of an explicit entropy source
      ([nat -> Q]) held in the pipeline state.
    - A decoded image is a [raster]: its width, its height and its pixels.
    - The image library is an external collaborator.  Every method the source
      calls on it is applied to the current raster in the order in which the
      source writes the calls.  [extract], [extend], [resize] and [composite]
      have the sizes (and, for the first two, the pixels) of their documented
      contract; what the library computes by resampling or convolution is left
      to a [Codec] instance. *)

From Stdlib Require Import ZArith QArith Qround Qabs Qminmax.
From Stdlib Require Import List String Bool Lia Lqa.
Import ListNotations.

Local Open Scope Z_scope.

(* ------------------------------------------------------------------ *)
(** ** JavaScript arithmetic on rationals *)

Module Math.

Definition round (x : Q) : Z := Qfloor (x + (1 # 2))%Q.
Definition floor (x : Q) : Z := Qfloor x.
Definition abs (x : Q) : Q := Qabs x.
Definition min (x y : Q) : Q := Qmin x y.
Definition max (x y : Q) : Q := Qmax x y.

End Math.

(** [if (x)] on a number: every number but zero is truthy. *)
Definition truthy (x : Q) : bool := negb (Qeq_bool x 0).

(** [x >= 0] on a number. *)
Definition nonneg (x : Q) : bool := Qle_bool 0 x.

(* ------------------------------------------------------------------ *)
(** ** Rasters *)

Record color := RGBA { red : Z; green : Z; blue : Z; alpha : Q }.

Record raster := Raster {
  width  : Z;
  height : Z;
  px     : Z -> Z -> color   (* column, row *)
}.

Definition inside (r : raster) (x y : Z) : bool :=
  (0 <=? x) && (x <? width r) && (0 <=? y) && (y <? height r).

(** Options of [extract]. *)
Record region := Region { left : Z; top : Z; rwidth : Z; rheight : Z }.

(** Options of [extend]; the amounts are JavaScript numbers. *)
Record margins := Margins {
  mtop : Q; mbottom : Q; mleft : Q; mright : Q; background : color
}.

Inductive channel := Brightness | Saturation | Contrast.

(** The [fit] option of [resize]; the default is [Cover]. *)
Inductive fit := Cover | Fill.

(** What the library computes on its own: filters and resampling. *)
Inductive filter :=
| Blur (sigma : Q)
| Sharpen (sigma : Q)
| Modulate (c : channel) (factor : Q)
| Affine (sx sy : Q) (bg : color)
| Rotate (angle : Q) (bg : color)
| Resize (w h : Z) (f : fit)
| Flatten
| Recode.

(** Every call the pipeline makes on the library, as it is logged. *)
Inductive call :=
| CCreate (w h : Z) (bg : color)
| CComposite (t l : Z)
| CFilter (f : filter)
| CExtract (reg : region)
| CExtend (m : margins)
| CToBuffer
| CToFile (path : string).

Inductive error :=
| InvalidParameter (c : call)     (* the call rejects its options *)
| BadExtractArea (reg : region) (w h : Z)   (* region outside the w x h image *)
| OperationFailed (c : call).     (* the library fails on accepted options *)

Definition result (A : Type) : Type := (error + A)%type.

(** The collaborator: pixels of filtered images, the size that [affine] and
    [rotate] give an image, the options a filter accepts and the blend used
    by [composite]. *)
Class Codec := {
  kernel  : filter -> raster -> Z -> Z -> color;
  bbox    : filter -> Z -> Z -> Z * Z;
  accepts : filter -> bool;
  blend   : color -> color -> color
}.

(** Size of the image a filter returns. *)
Definition filtered_size `{Codec} (f : filter) (r : raster) : Z * Z :=
  match f with
  | Resize w h _ => (w, h)
  | Affine _ _ _ | Rotate _ _ => bbox f (width r) (height r)
  | _ => (width r, height r)
  end.

Definition positive_size (f : filter) : bool :=
  match f with
  | Resize w h _ => (0 <? w) && (0 <? h)
  | _ => true
  end.

(** Filters with options of their own are validated by the library. *)
Definition validated `{Codec} (f : filter) : bool :=
  match f with
  | Resize _ _ _ | Flatten | Recode => true
  | _ => accepts f
  end.

Definition apply_filter `{Codec} (f : filter) (r : raster) : result raster :=
  if negb (positive_size f) then inl (InvalidParameter (CFilter f))
  else if negb (validated f) then inl (OperationFailed (CFilter f))
  else let '(w, h) := filtered_size f r in
       inr (Raster w h (kernel f r)).

(** [extract]: options must be non-negative integers, and the region must be
    a non-empty part of the image. *)
Definition extract_raster (reg : region) (r : raster) : result raster :=
  if (left reg <? 0) || (top reg <? 0) || (rwidth reg <? 0) || (rheight reg <? 0)
  then inl (InvalidParameter (CExtract reg))
  else if (rwidth reg <=? 0) || (rheight reg <=? 0)
          || (width r <? left reg + rwidth reg)
          || (height r <? top reg + rheight reg)
  then inl (BadExtractArea reg (width r) (height r))
  else inr (Raster (rwidth reg) (rheight reg)
                   (fun x y => px r (x + left reg) (y + top reg))).

(** A JavaScript number that is a non-negative integer. *)
Definition as_count (q : Q) : option Z :=
  let z := Qfloor q in
  if Qeq_bool q (inject_Z z) && (0 <=? z) then Some z else None.

(** [extend]: the four amounts must be non-negative integers. *)
Definition extend_raster (m : margins) (r : raster) : result raster :=
  match as_count (mtop m), as_count (mbottom m),
        as_count (mleft m), as_count (mright m) with
  | Some t, Some b, Some l, Some rt =>
      inr (Raster (width r + l + rt) (height r + t + b)
                  (fun x y => if inside r (x - l) (y - t)
                              then px r (x - l) (y - t)
                              else background m))
  | _, _, _, _ => inl (InvalidParameter (CExtend m))
  end.

(** A blank image of one colour. *)
Definition create_raster (w h : Z) (bg : color) : raster :=
  Raster w h (fun _ _ => bg).

(** [composite]: the overlay is laid over the base at [(l, t)]. *)
Definition composite_raster `{Codec} (overlay : raster) (t l : Z) (base : raster)
  : result raster :=
  if (width base <? l + width overlay) || (height base <? t + height overlay)
  then inl (OperationFailed (CComposite t l))
  else inr (Raster (width base) (height base)
                   (fun x y => if inside overlay (x - l) (y - t)
                               then blend (px overlay (x - l) (y - t)) (px base x y)
                               else px base x y)).

(* ------------------------------------------------------------------ *)
(** ** The pipeline monad: current image, entropy, log of library calls *)

Record state := State {
  img     : raster;        (* the image [transformedImage] stands for *)
  entropy : nat -> Q;      (* the values [Math.random()] returns, in order *)
  draws   : nat;           (* how many of them were read *)
  calls   : list call      (* library calls made so far, oldest first *)
}.

Definition M (A : Type) : Type := state -> result (A * state).

Definition ret {A} (a : A) : M A := fun st => inr (a, st).

Definition bind {A B} (m : M A) (k : A -> M B) : M B :=
  fun st => match m st with
            | inl e => inl e
            | inr (a, st') => k a st'
            end.

Notation "x <- m ;; k" := (bind m (fun x => k))
  (at level 61, m at next level, right associativity).
Notation "m ;; k" := (bind m (fun _ => k))
  (at level 61, right associativity).

(** [Math.random()] *)
Definition Math_random : M Q :=
  fun st => inr (entropy st (draws st),
                 State (img st) (entropy st) (S (draws st)) (calls st)).

(** A logged call that replaces the current image. *)
Definition sharp_call (c : call) (f : raster -> result raster) : M unit :=
  fun st => match f (img st) with
            | inl e => inl e
            | inr r => inr (tt, State r (entropy st) (draws st) (calls st ++ [c]))
            end.

(** Width and height of the current image. *)
Definition metadata : M (Z * Z) :=
  fun st => inr ((width (img st), height (img st)), st).

(** The paths given to [toFile], in order. *)
Definition written_by (cs : list call) : list string :=
  flat_map (fun c => match c with CToFile p => [p] | _ => [] end) cs.

Definition files_written (st : state) : list string := written_by (calls st).

(* ------------------------------------------------------------------ *)
(** ** Configuration *)

(** [TransformationConfig]: every property may be absent. *)
Record TransformationConfig := {
  shearRange      : option Q;
  rotationRange   : option Q;
  blurRange       : option Q;
  zoomRange       : option Q;
  sharpenRange    : option Q;
  brightnessRange : option Q;
  saturationRange : option Q;
  contrastRange   : option Q;
  transposeRange  : option Q;
  backgroundColor : option color
}.

Inductive effect :=
| EShear | ERotation | EBlur | EZoom | ESharpen
| EBrightness | ESaturation | EContrast | ETranspose.

Definition configured (cfg : TransformationConfig) (e : effect) : option Q :=
  match e with
  | EShear => shearRange cfg
  | ERotation => rotationRange cfg
  | EBlur => blurRange cfg
  | EZoom => zoomRange cfg
  | ESharpen => sharpenRange cfg
  | EBrightness => brightnessRange cfg
  | ESaturation => saturationRange cfg
  | EContrast => contrastRange cfg
  | ETranspose => transposeRange cfg
  end.

(** Destructuring with defaults: [const { shearRange = 0, ... } = config]. *)
Definition or_default {A} (d : A) (o : option A) : A :=
  match o with Some a => a | None => d end.

Definition range (cfg : TransformationConfig) (e : effect) : Q :=
  or_default 0%Q (configured cfg e).

Definition white : color := RGBA 255 255 255 1.

Definition bgcolor (cfg : TransformationConfig) : color :=
  or_default white (backgroundColor cfg).

(* ------------------------------------------------------------------ *)
(** ** Sampled parameters, as the source computes them *)

(** [Math.random() * range * 2 - range], for the value [u] of [Math.random()]. *)
Definition spread (u range : Q) : Q := (u * range * 2 - range)%Q.

Definition getRandomInRange (range : Q) : M Q :=
  u <- Math_random ;; ret (spread u range).

(** The argument of [blur] for the value [u] of [Math.random()]. *)
Definition blurSigma (blurRange u : Q) : Q :=
  let scalingFactor := 10%Q in
  let minBlurSigma := (3 # 10)%Q in
  let maxBlurSigma := Math.min (blurRange * scalingFactor) 1000 in
  let randomBlurSigma := (u * (maxBlurSigma - minBlurSigma) + minBlurSigma)%Q in
  Math.max (3 # 10) (Math.min randomBlurSigma 1000).

(** The [sigma] of [sharpen] for the value [u] of [Math.random()]. *)
Definition sharpenSigma (sharpenRange u : Q) : Q :=
  let scalingFactor := 999999%Q in
  let minSharpenSigma := (1 # 1000000)%Q in
  let maxSharpenSigma := Math.min (sharpenRange * scalingFactor) 10 in
  (u * (maxSharpenSigma - minSharpenSigma) + minSharpenSigma)%Q.

(** [Math.round((Math.random() - 0.5) * 2 * transposeRange)] *)
Definition transposeOffset (transposeRange u : Q) : Z :=
  Math.round ((u - (1 # 2)) * 2 * transposeRange)%Q.

(** [(Math.random() - 0.5) * 2 * zoomRange] *)
Definition zoomFactor (zoomRange u : Q) : Q :=
  ((u - (1 # 2)) * 2 * zoomRange)%Q.

(** Zoom-out: [Math.max(1 / (1 + Math.abs(randomZoomFactor)), 1)]. *)
Definition scaleFactor (randomZoomFactor : Q) : Q :=
  Math.max (1 / (1 + Math.abs randomZoomFactor)) 1.

(** [Math.round(size * factor)] *)
Definition scaled (size : Z) (factor : Q) : Z :=
  Math.round (inject_Z size * factor)%Q.

(** [(zoom - size) / 2], an amount of [extend]. *)
Definition half_gap (zoom size : Z) : Q :=
  ((inject_Z zoom - inject_Z size) / 2)%Q.

(** The region [cropToCenter] extracts. *)
Definition center_region (width height : Z) : region :=
  let centerX := Math.floor (inject_Z width / 2) in
  let centerY := Math.floor (inject_Z height / 2) in
  let halfOriginalWidth := Math.floor (inject_Z width / 2) in
  let halfOriginalHeight := Math.floor (inject_Z height / 2) in
  let left := Z.max 0 (centerX - halfOriginalWidth) in
  let top := Z.max 0 (centerY - halfOriginalHeight) in
  Region left top width height.

(** The region the final extractor takes out of a [tw] x [th] canvas. *)
Definition final_region (tw th width height : Z) : region :=
  let centerX := Math.floor (inject_Z tw / 2) in
  let centerY := Math.floor (inject_Z th / 2) in
  let halfOriginalWidth := Math.floor (inject_Z width / 2) in
  let halfOriginalHeight := Math.floor (inject_Z height / 2) in
  let left := Z.max 0 (centerX - halfOriginalWidth) in
  let top := Z.max 0 (centerY - halfOriginalHeight) in
  Region left top width height.

(* ------------------------------------------------------------------ *)
(** ** The pipeline *)

Section Pipeline.

Context `{Codec}.

(** *** Library methods on the current image *)

Definition create (w h : Z) (bg : color) : M unit :=
  sharp_call (CCreate w h bg) (fun _ => inr (create_raster w h bg)).
Definition composite (input : raster) (t l : Z) : M unit :=
  sharp_call (CComposite t l) (composite_raster input t l).
Definition apply (f : filter) : M unit :=
  sharp_call (CFilter f) (apply_filter f).
Definition blur (sigma : Q) : M unit := apply (Blur sigma).
Definition sharpen (sigma : Q) : M unit := apply (Sharpen sigma).
Definition modulate (c : channel) (v : Q) : M unit := apply (Modulate c v).
Definition affine (sx sy : Q) (bg : color) : M unit := apply (Affine sx sy bg).
Definition rotate (angle : Q) (bg : color) : M unit := apply (Rotate angle bg).
Definition resize (w h : Z) (f : fit) : M unit := apply (Resize w h f).
Definition flatten : M unit := apply Flatten.
Definition extract (reg : region) : M unit :=
  sharp_call (CExtract reg) (extract_raster reg).
Definition extend (m : margins) : M unit :=
  sharp_call (CExtend m) (extend_raster m).
(** [sharp(await image.toBuffer())]: encode and decode again. *)
Definition toBuffer : M unit :=
  sharp_call CToBuffer (apply_filter Recode).
(** [await image.toFile(path)]: the image itself is left as it is. *)
Definition toFile (path : string) : M unit :=
  sharp_call (CToFile path) (fun r => inr r).

(** *** [transposeImage] *)

Definition transposeImage (transposeX transposeY width height : Z)
           (backgroundColor : color) : M unit :=
  let transposeX := Z.min transposeX width in
  let transposeY := Z.min transposeY height in
  let newWidth := width - Z.abs transposeX in
  let newHeight := height - Z.abs transposeY in
  (if 0 <=? transposeX then
     (* Transpose to right *)
     extract (Region transposeX 0 newWidth height) ;;
     extend (Margins 0 0 (inject_Z transposeX) 0 backgroundColor)
   else
     (* Transpose to left *)
     extend (Margins 0 0 (inject_Z (- transposeX)) 0 backgroundColor) ;;
     extract (Region 0 0 newWidth height)) ;;
  (if 0 <=? transposeY then
     (* Transpose down *)
     extract (Region 0 transposeY newWidth newHeight) ;;
     extend (Margins (inject_Z transposeY) 0 0 0 backgroundColor)
   else
     (* Transpose up *)
     extend (Margins (inject_Z (- transposeY)) 0 0 0 backgroundColor) ;;
     extract (Region 0 0 newWidth newHeight)).

(** *** [cropToCenter] *)

Definition cropToCenter (width height : Z) : M unit :=
  extract (center_region width height) ;; flatten.

End Pipeline.

Section Stages.

Context `{Codec}.

Variable transformationConfig : TransformationConfig.
Variables width height wrapperWidth wrapperHeight : Z.

(** *** The [if (xRange) { ... }] block of every effect *)

Definition stage (e : effect) : M unit :=
  let backgroundColor := bgcolor transformationConfig in
  match e with
  | EBlur =>
      let blurRange := range transformationConfig EBlur in
      if truthy blurRange then
        u <- Math_random ;;
        blur (blurSigma blurRange u)
      else ret tt
  | ESharpen =>
      let sharpenRange := range transformationConfig ESharpen in
      if truthy sharpenRange then
        u <- Math_random ;;
        sharpen (sharpenSigma sharpenRange u)
      else ret tt
  | EBrightness =>
      let brightnessRange := range transformationConfig EBrightness in
      if truthy brightnessRange then
        randomBrightness <- getRandomInRange brightnessRange ;;
        modulate Brightness (1 + randomBrightness)
      else ret tt
  | ESaturation =>
      let saturationRange := range transformationConfig ESaturation in
      if truthy saturationRange then
        randomSaturation <- getRandomInRange saturationRange ;;
        modulate Saturation (1 + randomSaturation)
      else ret tt
  | EContrast =>
      let contrastRange := range transformationConfig EContrast in
      if truthy contrastRange then
        randomContrast <- getRandomInRange contrastRange ;;
        modulate Contrast (1 + randomContrast)
      else ret tt
  | EShear =>
      let shearRange := range transformationConfig EShear in
      if truthy shearRange then
        randomShearX <- getRandomInRange shearRange ;;
        randomShearY <- getRandomInRange shearRange ;;
        affine randomShearX randomShearY backgroundColor ;;
        resize wrapperWidth wrapperHeight Cover ;;
        cropToCenter wrapperWidth wrapperHeight
      else ret tt
  | ERotation =>
      let rotationRange := range transformationConfig ERotation in
      if truthy rotationRange then
        randomRotationAngle <- getRandomInRange rotationRange ;;
        rotate randomRotationAngle backgroundColor ;;
        resize wrapperWidth wrapperHeight Cover ;;
        cropToCenter wrapperWidth wrapperHeight
      else ret tt
  | ETranspose =>
      let transposeRange := range transformationConfig ETranspose in
      if truthy transposeRange then
        u <- Math_random ;;
        let randomTransposeX := transposeOffset transposeRange u in
        u <- Math_random ;;
        let randomTransposeY := transposeOffset transposeRange u in
        transposeImage randomTransposeX randomTransposeY
                       wrapperWidth wrapperHeight backgroundColor ;;
        cropToCenter wrapperWidth wrapperHeight
      else ret tt
  | EZoom =>
      let zoomRange := range transformationConfig EZoom in
      if truthy zoomRange then
        toBuffer ;;
        u <- Math_random ;;
        let randomZoomFactor := zoomFactor zoomRange u in
        if nonneg randomZoomFactor then
          (* Zoom in *)
          let zoomX := scaled wrapperWidth (1 + randomZoomFactor) in
          let zoomY := scaled wrapperHeight (1 + randomZoomFactor) in
          resize zoomX zoomY Cover
        else
          (* Zoom out *)
          let scaleFactor := scaleFactor randomZoomFactor in
          let zoomX := scaled wrapperWidth scaleFactor in
          let zoomY := scaled wrapperHeight scaleFactor in
          resize zoomX zoomY Cover ;;
          extend (Margins (half_gap zoomY height) (half_gap zoomY height)
                          (half_gap zoomX width) (half_gap zoomX width)
                          backgroundColor)
      else ret tt
  end.

(** *** Extract the center part, resize to the original dimensions *)

Definition finalExtract : M unit :=
  tMetadata <- metadata ;;
  extract (final_region (fst tMetadata) (snd tMetadata) width height) ;;
  resize width height Fill.

End Stages.

Section Augmentor.

Context `{Codec}.

Definition out_png : string := "out.png".

Definition applyTransformations (imageBuffer : raster)
           (transformationConfig : TransformationConfig) : M raster :=
  let backgroundColor := bgcolor transformationConfig in
  let w := width imageBuffer in
  let h := height imageBuffer in
  (* Padding for transformations *)
  let padding := Z.max w h in
  let wrapperWidth := w + 2 * padding in
  let wrapperHeight := h + 2 * padding in
  let stage := stage transformationConfig w h wrapperWidth wrapperHeight in
  create wrapperWidth wrapperHeight backgroundColor ;;
  composite imageBuffer padding padding ;;
  toBuffer ;;
  stage EBlur ;;
  stage ESharpen ;;
  stage EBrightness ;;
  stage ESaturation ;;
  stage EContrast ;;
  stage EShear ;;
  toFile out_png ;;
  stage ERotation ;;
  stage ETranspose ;;
  toFile out_png ;;
  stage EZoom ;;
  toFile out_png ;;
  toBuffer ;;
  finalExtract w h ;;
  toBuffer ;;
  fun st => inr (img st, st).

(** [createImageAugmentor(config)(imageBuffer)], run from a fresh state
    whose entropy source is [rnd]. *)
Definition createImageAugmentor (config : TransformationConfig)
           (imageBuffer : raster) (rnd : nat -> Q) : result (raster * state) :=
  applyTransformations imageBuffer config (State imageBuffer rnd 0 []).

End Augmentor.

(** A collaborator that copies pixels, keeps sizes, and accepts the options
    the library documents: a [blur] sigma between 0.3 and 1000, a [sharpen]
    sigma between 0.000001 and 10. *)
#[export] Instance reference_codec : Codec := {
  kernel := fun _ r => px r;
  bbox := fun _ w h => (w, h);
  accepts := fun f =>
    match f with
    | Blur s => Qle_bool (3 # 10) s && Qle_bool s 1000
    | Sharpen s => Qle_bool (1 # 1000000) s && Qle_bool s 10
    | _ => true
    end;
  blend := fun over _ => over
}.

(** Inputs used in the examples. *)
Definition no_config : TransformationConfig :=
  Build_TransformationConfig None None None None None None None None None None.

Definition grey (n : Z) : color := RGBA n n n 1.

(** A [w] x [h] image whose pixel at [(x, y)] is a grey of level [10 * y + x + 1]. *)
Definition ramp (w h : Z) : raster := Raster w h (fun x y => grey (10 * y + x + 1)).

(* ------------------------------------------------------------------ *)
(** ** The variant without canvas padding ([augmentor.js]) *)

Module Unpadded.

Section Variant.

Context `{Codec}.

(** [extract] given numbers for [left] and [top]: both must be non-negative
    integers.  A rejected call is logged with the floors of the numbers. *)
Definition extract_at (l t : Q) (width height : Z) : M unit :=
  match as_count l, as_count t with
  | Some l', Some t' => extract (Region l' t' width height)
  | _, _ =>
      fun _ => inl (InvalidParameter
                      (CExtract (Region (Qfloor l) (Qfloor t) width height)))
  end.

(** [1 + Math.random() * zoomRange] *)
Definition zoomScale (zoomRange u : Q) : Q := (1 + u * zoomRange)%Q.

Variable transformationConfig : TransformationConfig.
Variables width height : Z.

(** The [if (xRange) { ... }] block of every effect. *)
Definition stage (e : effect) : M unit :=
  let backgroundColor := bgcolor transformationConfig in
  match e with
  | ETranspose =>
      let transposeRange := range transformationConfig ETranspose in
      if truthy transposeRange then
        randomTransposeX <- getRandomInRange transposeRange ;;
        randomTransposeY <- getRandomInRange transposeRange ;;
        extract_at randomTransposeX randomTransposeY width height
      else ret tt
  | EZoom =>
      let zoomRange := range transformationConfig EZoom in
      if truthy zoomRange then
        u <- Math_random ;;
        let randomZoomFactor := zoomScale zoomRange u in
        let zoomX := scaled width randomZoomFactor in
        let zoomY := scaled height randomZoomFactor in
        resize zoomX zoomY Cover
      else ret tt
  | EShear =>
      let shearRange := range transformationConfig EShear in
      if truthy shearRange then
        randomShearX <- getRandomInRange shearRange ;;
        randomShearY <- getRandomInRange shearRange ;;
        affine randomShearX randomShearY backgroundColor
      else ret tt
  | ERotation =>
      let rotationRange := range transformationConfig ERotation in
      if truthy rotationRange then
        randomRotationAngle <- getRandomInRange rotationRange ;;
        rotate randomRotationAngle backgroundColor
      else ret tt
  | EBlur =>
      let blurRange := range transformationConfig EBlur in
      if truthy blurRange then
        u <- Math_random ;;
        blur (blurSigma blurRange u)
      else ret tt
  | ESharpen =>
      let sharpenRange := range transformationConfig ESharpen in
      if truthy sharpenRange then
        u <- Math_random ;;
        sharpen (sharpenSigma sharpenRange u)
      else ret tt
  | EBrightness =>
      let brightnessRange := range transformationConfig EBrightness in
      if truthy brightnessRange then
        randomBrightness <- getRandomInRange brightnessRange ;;
        modulate Brightness (1 + randomBrightness)
      else ret tt
  | ESaturation =>
      let saturationRange := range transformationConfig ESaturation in
      if truthy saturationRange then
        randomSaturation <- getRandomInRange saturationRange ;;
        modulate Saturation (1 + randomSaturation)
      else ret tt
  | EContrast =>
      let contrastRange := range transformationConfig EContrast in
      if truthy contrastRange then
        randomContrast <- getRandomInRange contrastRange ;;
        modulate Contrast (1 + randomContrast)
      else ret tt
  end.

End Variant.

Section Augmentor.

Context `{Codec}.

Definition applyTransformations (imageBuffer : raster)
           (transformationConfig : TransformationConfig) : M raster :=
  flatten ;;
  metadata <- metadata ;;
  let width := fst metadata in
  let height := snd metadata in
  let stage := stage transformationConfig width height in
  stage ETranspose ;;
  stage EZoom ;;
  stage EShear ;;
  stage ERotation ;;
  stage EBlur ;;
  stage ESharpen ;;
  stage EBrightness ;;
  stage ESaturation ;;
  stage EContrast ;;
  toBuffer ;;
  resize width height Cover ;;
  toBuffer ;;
  fun st => inr (img st, st).

(** [createImageAugmentor(config)(imageBuffer)], run from a fresh state
    whose entropy source is [rnd]. *)
Definition createImageAugmentor (config : TransformationConfig)
           (imageBuffer : raster) (rnd : nat -> Q) : result (raster * state) :=
  applyTransformations imageBuffer config (State imageBuffer rnd 0 []).

End Augmentor.

End Unpadded.

(* ------------------------------------------------------------------ *)
(** ** Vocabulary of the statements *)

Local Open Scope Q_scope.

(** [wp X m post st]: the run of [m] from [st] ends in a result and a state
    that satisfy [post], or it fails and [X] holds.  With [X := True] this is
    partial correctness, with [X := False] the run also succeeds. *)
Definition wp {A} (X : Prop) (m : M A) (post : A -> state -> Prop) (st : state)
  : Prop :=
  match m st with
  | inl _ => X
  | inr (a, st') => post a st'
  end.

(** The region lies within the image and is not empty. *)
Definition region_ok (reg : region) (r : raster) : Prop :=
  (0 <= left reg /\ 0 <= top reg /\ 0 < rwidth reg /\ 0 < rheight reg
   /\ left reg + rwidth reg <= width r /\ top reg + rheight reg <= height r)%Z.

Definition extracted (reg : region) (r : raster) : raster :=
  Raster (rwidth reg) (rheight reg)
         (fun x y => px r (x + left reg) (y + top reg))%Z.

Definition extended (t b l rt : Z) (bg : color) (r : raster) : raster :=
  Raster (width r + l + rt) (height r + t + b)
         (fun x y => if inside r (x - l) (y - t)
                     then px r (x - l) (y - t) else bg)%Z.

(** The image a filter returns. *)
Definition filtered `{Codec} (f : filter) (r : raster) : raster :=
  Raster (fst (filtered_size f r)) (snd (filtered_size f r)) (kernel f r).

(** The canvas after the block of effect [e], run from [st] to [st'], for an
    original image of [w] x [h] pixels. *)
Definition stage_outcome (cfg : TransformationConfig) (w h : Z) (e : effect)
           (st st' : state) : Prop :=
  let p := Z.max w h in
  let W := (w + 2 * p)%Z in
  let H := (h + 2 * p)%Z in
  match e with
  | EZoom =>
      if truthy (range cfg EZoom) then
        let f := zoomFactor (range cfg EZoom) (entropy st (draws st)) in
        if nonneg f then
          width (img st') = scaled W (1 + f)
          /\ height (img st') = scaled H (1 + f)
          /\ (W <= width (img st'))%Z /\ (H <= height (img st'))%Z
        else
          exists r, width r = W /\ height r = H
                    /\ img st' = extended p p p p (bgcolor cfg) r
      else st' = st
  | _ => width (img st') = W /\ height (img st') = H
  end.

(** Inputs used in the examples: a configuration with one range set. *)
Definition only (e : effect) (r : Q) : TransformationConfig :=
  let pick e' := match e, e' with
                 | EShear, EShear | ERotation, ERotation | EBlur, EBlur
                 | EZoom, EZoom | ESharpen, ESharpen
                 | EBrightness, EBrightness | ESaturation, ESaturation
                 | EContrast, EContrast | ETranspose, ETranspose => Some r
                 | _, _ => None
                 end in
  Build_TransformationConfig (pick EShear) (pick ERotation) (pick EBlur)
                             (pick EZoom) (pick ESharpen) (pick EBrightness)
                             (pick ESaturation) (pick EContrast)
                             (pick ETranspose) None.

(** A configuration with every effect but transpose enabled. *)
Definition example_config : TransformationConfig :=
  Build_TransformationConfig (Some (1 # 10)) (Some 90) (Some (1 # 10)) (Some 2)
                             (Some 2) (Some (1 # 2)) (Some (1 # 2))
                             (Some (1 # 2)) None None.

(** How many random values the block of an effect reads. *)
Definition cost (cfg : TransformationConfig) (e : effect) : nat :=
  if truthy (range cfg e) then
    match e with
    | EShear | ETranspose => 2%nat
    | _ => 1%nat
    end
  else 0%nat.

Definition total_cost (cfg : TransformationConfig) : nat :=
  (cost cfg EBlur + cost cfg ESharpen + cost cfg EBrightness
   + cost cfg ESaturation + cost cfg EContrast + cost cfg EShear
   + cost cfg ERotation + cost cfg ETranspose + cost cfg EZoom)%nat.

(** [m] reads [n] random values whenever it returns, and leaves the entropy
    source as it is. *)
Definition reads {A} (m : M A) (n : nat) : Prop :=
  forall st,
    wp True m (fun _ st' => draws st' = (draws st + n)%nat
                            /\ entropy st' = entropy st) st.

(** [m] gives no path to [toFile] whenever it returns. *)
Definition writes_nothing {A} (m : M A) : Prop :=
  forall st, wp True m (fun _ st' => files_written st' = files_written st) st.

(** The image [composite] returns. *)
Definition composited `{Codec} (overlay : raster) (t l : Z) (base : raster)
  : raster :=
  Raster (width base) (height base)
         (fun x y => if inside overlay (x - l) (y - t)
                     then blend (px overlay (x - l) (y - t)) (px base x y)
                     else px base x y)%Z.

(** A collaborator that loses nothing: encoding and decoding give the pixels
    back, resizing an image to its own size does too, and the composited
    input hides what lies under it. *)
Definition lossless `{Codec} : Prop :=
  (forall r x y, kernel Recode r x y = px r x y)
  /\ (forall w h f r x y,
         width r = w -> height r = h -> kernel (Resize w h f) r x y = px r x y)
  /\ (forall over under, blend over under = over).

(* ------------------------------------------------------------------ *)
(** * Properties *)

(** ** Arithmetic of the helpers *)

Lemma truthy_zero (x : Q) : x == 0 -> truthy x = false.
Proof.
  intros E. unfold truthy.
  apply Qeq_bool_iff in E. now rewrite E.
Qed.

Lemma nonneg_true (x : Q) : nonneg x = true <-> 0 <= x.
Proof. unfold nonneg. apply Qle_bool_iff. Qed.

Lemma nonneg_false (x : Q) : nonneg x = false <-> x < 0.
Proof.
  unfold nonneg. split; intros E.
  - apply Qnot_le_lt. intros L. apply Qle_bool_iff in L. congruence.
  - destruct (Qle_bool 0 x) eqn:B; [|reflexivity].
    apply Qle_bool_iff in B. exfalso. apply (Qlt_not_le _ _ E B).
Qed.

(** An integer between [x - 1] (excluded) and [x] is the floor of [x]. *)
Lemma Qfloor_unique (x : Q) (z : Z) :
  inject_Z z <= x -> x < inject_Z (z + 1) -> Qfloor x = z.
Proof.
  intros Lo Hi.
  pose proof (Qfloor_le x) as Fl.
  pose proof (Qlt_floor x) as Fu.
  assert (A : (z < Qfloor x + 1)%Z).
  { rewrite Zlt_Qlt. eapply Qle_lt_trans; eassumption. }
  assert (B : (Qfloor x < z + 1)%Z).
  { rewrite Zlt_Qlt. eapply Qle_lt_trans; eassumption. }
  lia.
Qed.

Lemma round_integer (z : Z) (q : Q) : q == inject_Z z -> Math.round q = z.
Proof.
  intros E. unfold Math.round. rewrite E.
  apply Qfloor_unique.
  - rewrite <- (Qplus_0_r (inject_Z z)) at 1.
    apply Qplus_le_r. discriminate.
  - rewrite inject_Z_plus. apply Qplus_lt_r. reflexivity.
Qed.

Lemma floor_half (n : Z) : Math.floor (inject_Z n / 2) = (n / 2)%Z.
Proof. unfold Math.floor. symmetry. apply (Zdiv_Qdiv n 2). Qed.

Lemma scaleFactor_one (f : Q) : scaleFactor f == 1.
Proof.
  unfold scaleFactor, Math.max, Math.abs.
  apply Q.max_r.
  pose proof (Qabs_nonneg f) as A.
  apply Qle_shift_div_r; lra.
Qed.

Lemma scaled_one (size : Z) (k : Q) : k == 1 -> scaled size k = size.
Proof.
  intros E. unfold scaled. apply round_integer. rewrite E. ring.
Qed.

Lemma scaled_grows (size : Z) (f : Q) :
  (0 <= size)%Z -> 0 <= f -> (size <= scaled size (1 + f))%Z.
Proof.
  intros S F. unfold scaled, Math.round.
  rewrite <- (Qfloor_Z size) at 1.
  apply Qfloor_resp_le.
  assert (P : 0 <= inject_Z size * f).
  { apply Qmult_le_0_compat; [|assumption].
    rewrite Zle_Qle in S. exact S. }
  lra.
Qed.

Lemma as_count_integer (q : Q) (z : Z) :
  q == inject_Z z -> (0 <= z)%Z -> as_count q = Some z.
Proof.
  intros E P. unfold as_count.
  assert (F : Qfloor q = z) by (rewrite E; apply Qfloor_Z).
  rewrite F.
  apply Qeq_bool_iff in E. rewrite E.
  apply Z.leb_le in P. now rewrite P.
Qed.


Lemma half_gap_padding (w p : Z) :
  (0 <= p)%Z -> as_count (half_gap (w + 2 * p) w) = Some p.
Proof.
  intros P. apply as_count_integer; [|assumption].
  unfold half_gap. rewrite inject_Z_plus, inject_Z_mult. field.
Qed.

(** A value between 0 and 1 interpolates between two ends. *)
Lemma interpolate_between (u lo hi : Q) :
  0 <= u -> u < 1 -> lo <= hi ->
  lo <= u * (hi - lo) + lo /\ u * (hi - lo) + lo <= hi.
Proof.
  intros U0 U1 L.
  assert (P : 0 <= u * (hi - lo)) by (apply Qmult_le_0_compat; lra).
  assert (R : 0 <= (1 - u) * (hi - lo)) by (apply Qmult_le_0_compat; lra).
  split; [lra|].
  setoid_replace (u * (hi - lo) + lo) with (hi - (1 - u) * (hi - lo)) by ring.
  lra.
Qed.

Lemma interpolate_reversed (u lo hi : Q) :
  0 <= u -> u < 1 -> hi <= lo ->
  hi <= u * (hi - lo) + lo /\ u * (hi - lo) + lo <= lo.
Proof.
  intros U0 U1 L.
  assert (P : 0 <= u * (lo - hi)) by (apply Qmult_le_0_compat; lra).
  assert (R : 0 <= (1 - u) * (lo - hi)) by (apply Qmult_le_0_compat; lra).
  split.
  - setoid_replace (u * (hi - lo) + lo) with (hi + (1 - u) * (lo - hi)) by ring.
    lra.
  - setoid_replace (u * (hi - lo) + lo) with (lo - u * (lo - hi)) by ring.
    lra.
Qed.

(* ------------------------------------------------------------------ *)
(** ** The parameter sampler *)



(** The transpose block samples its offsets in line and rounds them: for an
    integral range the offset stays within the range. *)
Lemma transposeOffset_within_integral_range (r : Z) (u : Q) :
  (0 <= r)%Z -> 0 <= u -> u < 1 ->
  (- r <= transposeOffset (inject_Z r) u <= r)%Z.
Proof.
  intros R U0 U1. unfold transposeOffset, Math.round.
  assert (Rq : 0 <= inject_Z r) by (rewrite Zle_Qle in R; exact R).
  assert (P : 0 <= u * inject_Z r) by (apply Qmult_le_0_compat; assumption).
  assert (N : 0 <= (1 - u) * inject_Z r) by (apply Qmult_le_0_compat; lra).
  set (x := (u - (1 # 2)) * 2 * inject_Z r + (1 # 2)).
  assert (Lo : inject_Z (- r) <= x).
  { rewrite inject_Z_opp. unfold x.
    setoid_replace ((u - (1 # 2)) * 2 * inject_Z r + (1 # 2))
      with (2 * (u * inject_Z r) - inject_Z r + (1 # 2)) by ring.
    lra. }
  assert (Hi : x < inject_Z (r + 1)).
  { rewrite inject_Z_plus. unfold x.
    setoid_replace ((u - (1 # 2)) * 2 * inject_Z r + (1 # 2))
      with (inject_Z r - 2 * ((1 - u) * inject_Z r) + (1 # 2)) by ring.
    change (inject_Z 1) with 1. lra. }
  split.
  - rewrite <- (Qfloor_Z (- r)). now apply Qfloor_resp_le.
  - assert (F : (Qfloor x < r + 1)%Z).
    { rewrite Zlt_Qlt. eapply Qle_lt_trans; [apply Qfloor_le|exact Hi]. }
    lia.
Qed.

(** C6, as the code has it.  For a blur range above 0 the sigma given to
    [blur] lies between 0.3 and the larger of 0.3 and [min(range * 10, 1000)];
    that is the interval from 0.3 to [min(range * 10, 1000)] as soon as
    [range * 10] reaches 0.3.  The sigma given to [sharpen] lies between
    0.000001 and [min(range * 999999, 10)] as soon as [range * 999999] reaches
    0.000001. *)
Theorem sigma_intervals (r u : Q) :
  0 < r -> 0 <= u -> u < 1 ->
  ((3 # 10) <= blurSigma r u
   /\ blurSigma r u <= Qmax (3 # 10) (Qmin (r * 10) 1000))
  /\ ((3 # 10) <= r * 10 -> blurSigma r u <= Qmin (r * 10) 1000)
  /\ ((1 # 1000000) <= r * 999999 ->
      (1 # 1000000) <= sharpenSigma r u
      /\ sharpenSigma r u <= Qmin (r * 999999) 10).
Proof.
  intros R U0 U1.
  assert (B : (3 # 10) <= blurSigma r u
              /\ blurSigma r u <= Qmax (3 # 10) (Qmin (r * 10) 1000)).
  { unfold blurSigma, Math.max, Math.min.
    set (m := Qmin (r * 10) 1000).
    set (x := u * (m - (3 # 10)) + (3 # 10)).
    assert (M : m <= 1000) by apply Q.le_min_r.
    split; [apply Q.le_max_l|].
    apply Q.max_lub; [apply Q.le_max_l|].
    destruct (Qlt_le_dec m (3 # 10)) as [Small|Large].
    - destruct (interpolate_reversed u (3 # 10) m) as [_ Hi];
        try assumption; [lra|].
      eapply Qle_trans; [apply Q.le_min_l|].
      eapply Qle_trans; [exact Hi|apply Q.le_max_l].
    - destruct (interpolate_between u (3 # 10) m) as [_ Hi]; try assumption.
      eapply Qle_trans; [apply Q.le_min_l|].
      eapply Qle_trans; [exact Hi|apply Q.le_max_r]. }
  split; [exact B|]. split.
  - intros Large. destruct B as [_ B].
    eapply Qle_trans; [exact B|].
    apply Q.max_lub; [|apply Qle_refl].
    apply Q.min_glb; [exact Large|discriminate].
  - intros Large. unfold sharpenSigma, Math.min.
    apply interpolate_between; try assumption.
    apply Q.min_glb; [exact Large|discriminate].
Qed.

Lemma sigma_intervals_witness :
  ((3 # 10) <= blurSigma (1 # 10) (1 # 2)
   /\ blurSigma (1 # 10) (1 # 2) <= Qmax (3 # 10) (Qmin ((1 # 10) * 10) 1000))
  /\ ((3 # 10) <= (1 # 10) * 10 ->
      blurSigma (1 # 10) (1 # 2) <= Qmin ((1 # 10) * 10) 1000)
  /\ ((1 # 1000000) <= (1 # 10) * 999999 ->
      (1 # 1000000) <= sharpenSigma (1 # 10) (1 # 2)
      /\ sharpenSigma (1 # 10) (1 # 2) <= Qmin ((1 # 10) * 999999) 10).
Proof.
  apply (sigma_intervals (1 # 10) (1 # 2)); lra.
Defined.

(** C6 fails as stated: with [blurRange = 0.01] the sigma is 0.3, above
    [min(0.01 * 10, 1000) = 0.1]; with [sharpenRange = 1e-13] and a random
    value of one half the sigma is above [min(1e-13 * 999999, 10)]. *)
Lemma sigma_above_claimed_maximum :
  ~ (blurSigma (1 # 100) 0 <= Qmin ((1 # 100) * 10) 1000)
  /\ ~ (sharpenSigma (1 # 10000000000000) (1 # 2)
        <= Qmin ((1 # 10000000000000) * 999999) 10).
Proof.
  split; intros L; vm_compute in L; apply L; reflexivity.
Qed.

(* ------------------------------------------------------------------ *)
(** ** Zoom-out scale factor *)

(** C2, as the code has it.  For a negative zoom factor the zoom stage takes
    its zoom-out branch and the scale factor is
    [max(1 / (1 + |f|), 1)], which is 1: it is never below 1, and the canvas
    is resized to its own size. *)
Theorem zoom_out_scale_factor (f : Q) (size : Z) :
  f < 0 ->
  nonneg f = false
  /\ scaleFactor f == Qmax (1 / (1 + Qabs f)) 1
  /\ scaleFactor f == 1
  /\ ~ scaleFactor f < 1
  /\ scaled size (scaleFactor f) = size.
Proof.
  intros F.
  pose proof (scaleFactor_one f) as One.
  split; [now apply nonneg_false|].
  split; [reflexivity|].
  split; [exact One|].
  split; [rewrite One; intros L; discriminate L|].
  now apply scaled_one.
Qed.

Lemma zoom_out_scale_factor_witness :
  nonneg (- (1 # 2)) = false
  /\ scaleFactor (- (1 # 2)) == Qmax (1 / (1 + Qabs (- (1 # 2)))) 1
  /\ scaleFactor (- (1 # 2)) == 1
  /\ ~ scaleFactor (- (1 # 2)) < 1
  /\ scaled 30 (scaleFactor (- (1 # 2))) = 30%Z.
Proof.
  apply (zoom_out_scale_factor (- (1 # 2)) 30). reflexivity.
Defined.

(** C2 fails as stated: for the factor -1/2 the scale factor is not
    [1 / (1 + 1/2)], and a 30-pixel side is not scaled down to 20. *)
Lemma zoom_out_does_not_scale_down :
  ~ scaleFactor (- (1 # 2)) == 1 / (1 + Qabs (- (1 # 2)))
  /\ scaled 30 (scaleFactor (- (1 # 2)))
     <> scaled 30 (1 / (1 + Qabs (- (1 # 2)))).
Proof.
  split; intros E; vm_compute in E; discriminate E.
Qed.

(* ------------------------------------------------------------------ *)
(** ** The center-crop helper *)

(** C10. For every width and height [cropToCenter] computes [left = 0] and
    [top = 0]: it extracts the region of the requested size that starts at
    the origin of the image it is given, then flattens it. *)
Theorem cropToCenter_extracts_at_origin `{Codec} (w h : Z) :
  left (center_region w h) = 0%Z
  /\ top (center_region w h) = 0%Z
  /\ center_region w h = Region 0 0 w h
  /\ cropToCenter w h = (extract (Region 0 0 w h) ;; flatten).
Proof.
  assert (E : center_region w h = Region 0 0 w h).
  { unfold center_region. now rewrite !Z.sub_diag. }
  unfold cropToCenter. rewrite E. repeat split.
Qed.

(* ------------------------------------------------------------------ *)
(** ** Reasoning about runs of the pipeline monad *)

Lemma wp_ret {A} X (a : A) post st : post a st -> wp X (ret a) post st.
Proof. exact (fun p => p). Qed.

Lemma wp_bind {A B} X (m : M A) (k : A -> M B) post st :
  wp X m (fun a => wp X (k a) post) st -> wp X (bind m k) post st.
Proof.
  unfold wp, bind. destruct (m st) as [e|[a st']]; exact (fun p => p).
Qed.

Lemma wp_random X post st :
  post (entropy st (draws st))
       (State (img st) (entropy st) (S (draws st)) (calls st)) ->
  wp X Math_random post st.
Proof. exact (fun p => p). Qed.

Lemma wp_getRandomInRange X r post st :
  post (spread (entropy st (draws st)) r)
       (State (img st) (entropy st) (S (draws st)) (calls st)) ->
  wp X (getRandomInRange r) post st.
Proof. exact (fun p => p). Qed.

Lemma wp_metadata X post st :
  post (width (img st), height (img st)) st -> wp X metadata post st.
Proof. exact (fun p => p). Qed.

Lemma wp_call X c f post st :
  match f (img st) with
  | inl _ => X
  | inr r => post tt (State r (entropy st) (draws st) (calls st ++ [c]))
  end ->
  wp X (sharp_call c f) post st.
Proof.
  unfold wp, sharp_call. destruct (f (img st)); exact (fun p => p).
Qed.

Lemma wp_partial {A} (m : M A) post st a st' :
  wp True m post st -> m st = inr (a, st') -> post a st'.
Proof. unfold wp. intros W E. now rewrite E in W. Qed.

Lemma wp_total {A} (m : M A) post st :
  wp False m post st -> exists a st', m st = inr (a, st') /\ post a st'.
Proof.
  unfold wp. destruct (m st) as [e|[a st']].
  - intros F. destruct F.
  - intros P. now exists a, st'.
Qed.

Lemma wp_total_unit (m : M unit) (post : state -> Prop) st :
  wp False m (fun _ => post) st -> exists st', m st = inr (tt, st') /\ post st'.
Proof.
  intros P. destruct (wp_total _ _ _ P) as ([] & st' & E & Q). now exists st'.
Qed.

Lemma wp_mono {A} X (m : M A) (post post' : A -> state -> Prop) st :
  wp X m post' st -> (forall a s, post' a s -> post a s) -> wp X m post st.
Proof.
  unfold wp. destruct (m st) as [e|[a st']].
  - exact (fun x _ => x).
  - intros P I. now apply I.
Qed.

(** When failure is covered, nothing has to be known about the call. *)
Lemma wp_call_covered (X : Prop) c f post st :
  X ->
  (forall r, post tt (State r (entropy st) (draws st) (calls st ++ [c]))) ->
  wp X (sharp_call c f) post st.
Proof.
  intros Cov Q. apply wp_call. destruct (f (img st)); [exact Cov|apply Q].
Qed.

Lemma extract_raster_ok (reg : region) (r : raster) :
  region_ok reg r -> extract_raster reg r = inr (extracted reg r).
Proof.
  intros (L & T & W & Hh & Fw & Fh). unfold extract_raster.
  assert (E1 : ((left reg <? 0) || (top reg <? 0) || (rwidth reg <? 0)
                || (rheight reg <? 0) = false)%Z).
  { repeat (apply orb_false_intro); apply Z.ltb_ge; lia. }
  assert (E2 : ((rwidth reg <=? 0) || (rheight reg <=? 0)
                || (width r <? left reg + rwidth reg)
                || (height r <? top reg + rheight reg) = false)%Z).
  { repeat (apply orb_false_intro);
      first [apply Z.leb_gt; lia | apply Z.ltb_ge; lia]. }
  now rewrite E1, E2.
Qed.

Lemma extract_raster_inr (reg : region) (r r' : raster) :
  extract_raster reg r = inr r' -> region_ok reg r /\ r' = extracted reg r.
Proof.
  unfold extract_raster.
  destruct ((left reg <? 0) || (top reg <? 0) || (rwidth reg <? 0)
            || (rheight reg <? 0))%Z eqn:E1; [discriminate|].
  destruct ((rwidth reg <=? 0) || (rheight reg <=? 0)
            || (width r <? left reg + rwidth reg)
            || (height r <? top reg + rheight reg))%Z eqn:E2; [discriminate|].
  intros E. injection E as <-. split; [|reflexivity].
  repeat (apply orb_false_elim in E1; destruct E1 as [E1 ?]).
  repeat (apply orb_false_elim in E2; destruct E2 as [E2 ?]).
  unfold region_ok.
  repeat match goal with
         | B : (_ <? _)%Z = false |- _ => apply Z.ltb_ge in B
         | B : (_ <=? _)%Z = false |- _ => apply Z.leb_gt in B
         end.
  lia.
Qed.

Lemma extend_raster_ok (m : margins) (r : raster) (t b l rt : Z) :
  as_count (mtop m) = Some t -> as_count (mbottom m) = Some b ->
  as_count (mleft m) = Some l -> as_count (mright m) = Some rt ->
  extend_raster m r = inr (extended t b l rt (background m) r).
Proof. intros Et Eb El Er. unfold extend_raster. now rewrite Et, Eb, El, Er. Qed.

Section MethodRules.

Context `{Codec}.
Variable X : Prop.

Lemma apply_filter_ok (f : filter) (r : raster) :
  positive_size f = true -> validated f = true ->
  apply_filter f r = inr (filtered f r).
Proof.
  intros P V. unfold apply_filter, filtered. rewrite P, V. simpl.
  now destruct (filtered_size f r).
Qed.

Lemma wp_apply f post st :
  positive_size f = true ->
  (validated f = false -> X) ->
  post tt (State (filtered f (img st)) (entropy st) (draws st)
                 (calls st ++ [CFilter f])) ->
  wp X (apply f) post st.
Proof.
  intros P V Q. apply wp_call.
  destruct (validated f) eqn:E.
  - now rewrite apply_filter_ok.
  - unfold apply_filter. rewrite P, E. simpl. now apply V.
Qed.

Lemma wp_toBuffer post st :
  post tt (State (filtered Recode (img st)) (entropy st) (draws st)
                 (calls st ++ [CToBuffer])) ->
  wp X toBuffer post st.
Proof. intros Q. apply wp_call. now rewrite apply_filter_ok. Qed.

Lemma wp_toFile path post st :
  post tt (State (img st) (entropy st) (draws st) (calls st ++ [CToFile path])) ->
  wp X (toFile path) post st.
Proof. intros Q. now apply wp_call. Qed.

Lemma wp_create w h bg post st :
  post tt (State (create_raster w h bg) (entropy st) (draws st)
                 (calls st ++ [CCreate w h bg])) ->
  wp X (create w h bg) post st.
Proof. intros Q. now apply wp_call. Qed.

Lemma wp_extract reg post st :
  (~ region_ok reg (img st) -> X) ->
  (region_ok reg (img st) ->
   post tt (State (extracted reg (img st)) (entropy st) (draws st)
                  (calls st ++ [CExtract reg]))) ->
  wp X (extract reg) post st.
Proof.
  intros Bad Good. apply wp_call.
  destruct (extract_raster reg (img st)) as [e|r] eqn:E.
  - apply Bad. intros Ok. rewrite (extract_raster_ok _ _ Ok) in E. discriminate.
  - apply extract_raster_inr in E. destruct E as [Ok ->]. now apply Good.
Qed.

Lemma wp_extend m t b l rt post st :
  as_count (mtop m) = Some t -> as_count (mbottom m) = Some b ->
  as_count (mleft m) = Some l -> as_count (mright m) = Some rt ->
  post tt (State (extended t b l rt (background m) (img st))
                 (entropy st) (draws st) (calls st ++ [CExtend m])) ->
  wp X (extend m) post st.
Proof.
  intros Et Eb El Er Q. apply wp_call.
  now rewrite (extend_raster_ok _ _ _ _ _ _ Et Eb El Er).
Qed.

Lemma wp_composite overlay t l post st :
  (l + width overlay <= width (img st))%Z ->
  (t + height overlay <= height (img st))%Z ->
  (forall r, width r = width (img st) -> height r = height (img st) ->
             post tt (State r (entropy st) (draws st)
                            (calls st ++ [CComposite t l]))) ->
  wp X (composite overlay t l) post st.
Proof.
  intros Fw Fh Q. apply wp_call. unfold composite_raster.
  assert (E : ((width (img st) <? l + width overlay)
               || (height (img st) <? t + height overlay) = false)%Z).
  { apply orb_false_intro; apply Z.ltb_ge; lia. }
  rewrite E. now apply Q.
Qed.

End MethodRules.

(* ------------------------------------------------------------------ *)
(** ** Disabled effects *)

Lemma absent_range_is_zero (cfg : TransformationConfig) (e : effect) :
  configured cfg e = None -> range cfg e == 0.
Proof. intros E. unfold range. now rewrite E. Qed.

(** C8. An effect whose range is absent from the configuration or is zero is
    skipped altogether: its block returns without an error and leaves the
    state as it was, so no random value is read, no library call is made and
    the image is untouched. *)
Theorem disabled_effect_is_skipped `{Codec}
        (cfg : TransformationConfig) (e : effect)
        (w h wrapperWidth wrapperHeight : Z) (st : state) :
  (configured cfg e = None \/ exists q, configured cfg e = Some q /\ q == 0) ->
  stage cfg w h wrapperWidth wrapperHeight e st = inr (tt, st).
Proof.
  intros D.
  assert (R : truthy (range cfg e) = false).
  { apply truthy_zero. destruct D as [D|(q & D & Z0)].
    - now apply absent_range_is_zero.
    - unfold range. now rewrite D. }
  destruct e; unfold stage; cbv zeta; rewrite R; reflexivity.
Qed.

Lemma disabled_effect_is_skipped_witness :
  stage (Build_TransformationConfig None None (Some 0) None None None None None
                                    None None)
        2 3 8 9 EBlur (State (ramp 8 9) (fun _ => 1 # 2) 0 [])
  = inr (tt, State (ramp 8 9) (fun _ => 1 # 2) 0 []).
Proof.
  apply (@disabled_effect_is_skipped reference_codec).
  right. exists 0. split; reflexivity.
Defined.

(* ------------------------------------------------------------------ *)
(** ** Files written and canvas size, stage by stage *)

Lemma written_by_snoc (cs : list call) (c : call) :
  written_by (cs ++ [c])
  = (written_by cs ++ match c with CToFile p => [p] | _ => [] end)%list.
Proof.
  unfold written_by. rewrite flat_map_app. cbn [flat_map]. now rewrite app_nil_r.
Qed.

Lemma center_region_origin (w h : Z) : center_region w h = Region 0 0 w h.
Proof. unfold center_region. now rewrite !Z.sub_diag. Qed.

Ltac files_unchanged :=
  unfold files_written; cbn [calls];
  rewrite ?written_by_snoc, ?app_nil_r; try reflexivity.

Section StageRules.

Context `{Codec}.
Variable X : Prop.
Variable cfg : TransformationConfig.
Variables w h : Z.
Hypothesis w_pos : (0 < w)%Z.
Hypothesis h_pos : (0 < h)%Z.

Local Notation "'pad'" := (Z.max w h).
Local Notation "'W'" := (w + 2 * Z.max w h)%Z.
Local Notation "'H'" := (h + 2 * Z.max w h)%Z.

(** Failures that [X] has to cover: a filter the library rejects, and the
    extracts of the transpose block. *)
Hypothesis rejected : forall f, validated f = false -> X.
Hypothesis transposing : truthy (range cfg ETranspose) = true -> X.

Lemma wrapper_positive : (0 <? W)%Z && (0 <? H)%Z = true.
Proof. apply andb_true_intro. split; apply Z.ltb_lt; lia. Qed.

Lemma wp_restore post st :
  post tt (State (filtered Flatten
                    (extracted (Region 0 0 W H)
                       (filtered (Resize W H Cover) (img st))))
                 (entropy st) (draws st)
                 (((calls st ++ [CFilter (Resize W H Cover)])
                     ++ [CExtract (Region 0 0 W H)]) ++ [CFilter Flatten])) ->
  wp X (resize W H Cover ;; cropToCenter W H) post st.
Proof.
  intros Q. apply wp_bind. apply wp_apply; [apply wrapper_positive|apply rejected|].
  unfold cropToCenter. rewrite center_region_origin.
  apply wp_bind. apply wp_extract.
  - intros N. exfalso. apply N. unfold region_ok.
    cbn [img width height filtered filtered_size fst snd left top rwidth rheight].
    lia.
  - intros _. apply wp_apply; [reflexivity|apply rejected|]. exact Q.
Qed.

Lemma transposeImage_quiet (tx ty wd ht : Z) (bg : color) st :
  X ->
  wp X (transposeImage tx ty wd ht bg)
     (fun _ st' => files_written st' = files_written st) st.
Proof.
  intros Cov. unfold transposeImage, extract, extend. cbv zeta.
  destruct (0 <=? Z.min tx wd)%Z; destruct (0 <=? Z.min ty ht)%Z;
    apply wp_bind;
    (apply wp_bind; apply wp_call_covered; [exact Cov|intros r1]);
    (apply wp_call_covered; [exact Cov|intros r2]);
    (apply wp_bind; apply wp_call_covered; [exact Cov|intros r3]);
    (apply wp_call_covered; [exact Cov|intros r4]);
    files_unchanged.
Qed.

Ltac photometric Q rejected :=
  match goal with
  | |- context [truthy ?r] => destruct (truthy r)
  end;
  [ apply wp_bind; first [apply wp_random | apply wp_getRandomInRange];
    apply wp_apply; [reflexivity|apply rejected|];
    apply Q; [files_unchanged|split; assumption]
  | apply wp_ret; apply Q; [reflexivity|split; assumption] ].

Lemma stage_spec (e : effect) post st :
  width (img st) = W -> height (img st) = H ->
  (forall st', files_written st' = files_written st ->
               stage_outcome cfg w h e st st' -> post tt st') ->
  wp X (stage cfg w h W H e) post st.
Proof.
  intros Sw Sh Q.
  destruct e; unfold stage; cbv zeta.
  - (* shear *)
    destruct (truthy (range cfg EShear)).
    + apply wp_bind, wp_getRandomInRange.
      apply wp_bind, wp_getRandomInRange.
      apply wp_bind. apply wp_apply; [reflexivity|apply rejected|].
      apply wp_restore. apply Q; [files_unchanged|split; reflexivity].
    + apply wp_ret. apply Q; [reflexivity|now split].
  - (* rotation *)
    destruct (truthy (range cfg ERotation)).
    + apply wp_bind, wp_getRandomInRange.
      apply wp_bind. apply wp_apply; [reflexivity|apply rejected|].
      apply wp_restore. apply Q; [files_unchanged|split; reflexivity].
    + apply wp_ret. apply Q; [reflexivity|now split].
  - photometric Q rejected.
  - (* zoom *)
    unfold stage_outcome in Q. cbv zeta in Q.
    destruct (truthy (range cfg EZoom)).
    + apply wp_bind, wp_toBuffer. apply wp_bind, wp_random.
      cbn [entropy draws].
      destruct (nonneg (zoomFactor (range cfg EZoom) (entropy st (draws st))))
        eqn:N.
      * apply nonneg_true in N.
        pose proof (scaled_grows W _ ltac:(lia) N) as Gw.
        pose proof (scaled_grows H _ ltac:(lia) N) as Gh.
        apply wp_apply; [|apply rejected|].
        { apply andb_true_intro. split; apply Z.ltb_lt; lia. }
        apply Q; [files_unchanged|].
        cbn [img width height filtered filtered_size fst snd].
        repeat split; assumption.
      * rewrite !(scaled_one _ _ (scaleFactor_one _)).
        apply wp_bind. apply wp_apply; [apply wrapper_positive|apply rejected|].
        apply (wp_extend X _ pad pad pad pad);
          try (cbn [mtop mbottom mleft mright]; apply half_gap_padding; lia).
        apply Q; [files_unchanged|].
        eexists. split; [|split; [|reflexivity]]; reflexivity.
    + apply wp_ret. apply Q; reflexivity.
  - photometric Q rejected.
  - photometric Q rejected.
  - photometric Q rejected.
  - photometric Q rejected.
  - (* transpose *)
    destruct (truthy (range cfg ETranspose)) eqn:T.
    + pose proof (transposing eq_refl) as Cov.
      apply wp_bind, wp_random. apply wp_bind, wp_random.
      apply wp_bind.
      eapply wp_mono; [apply transposeImage_quiet; exact Cov|].
      intros [] st1 F1. cbv beta.
      unfold cropToCenter. rewrite center_region_origin.
      apply wp_bind. apply wp_extract; [intros _; exact Cov|intros _].
      apply wp_apply; [reflexivity|apply rejected|].
      apply Q; [|split; reflexivity].
      files_unchanged. exact F1.
    + apply wp_ret. apply Q; [reflexivity|now split].
Qed.

End StageRules.

(* ------------------------------------------------------------------ *)
(** ** The whole pipeline *)

Lemma final_region_ok (r : raster) (w h : Z) :
  (0 < w)%Z -> (0 < h)%Z -> (w <= width r)%Z -> (h <= height r)%Z ->
  region_ok (final_region (width r) (height r) w h) r.
Proof.
  intros Pw Ph Lw Lh. unfold region_ok, final_region.
  rewrite !floor_half. cbn [left top rwidth rheight]. Z.to_euclidean_division_equations; lia.
Qed.

Lemma zoom_outcome_covers (cfg : TransformationConfig) (w h : Z) (st st' : state) :
  (0 < w)%Z -> (0 < h)%Z ->
  width (img st) = (w + 2 * Z.max w h)%Z ->
  height (img st) = (h + 2 * Z.max w h)%Z ->
  stage_outcome cfg w h EZoom st st' ->
  (w <= width (img st'))%Z /\ (h <= height (img st'))%Z.
Proof.
  intros Pw Ph Sw Sh O. unfold stage_outcome in O. cbv zeta in O.
  destruct (truthy (range cfg EZoom)).
  - destruct (nonneg _).
    + lia.
    + destruct O as (r & Rw & Rh & ->). cbn [width height extended]. lia.
  - subst st'. lia.
Qed.

Lemma wp_current X post st :
  post (img st) st -> wp X (fun s => inr (img s, s)) post st.
Proof. exact (fun q => q). Qed.

Section PipelineRules.

Context `{Codec}.
Variable X : Prop.
Variable cfg : TransformationConfig.
Variable imageBuffer : raster.
Hypothesis w_pos : (0 < width imageBuffer)%Z.
Hypothesis h_pos : (0 < height imageBuffer)%Z.
Hypothesis rejected : forall f, validated f = false -> X.
Hypothesis transposing : truthy (range cfg ETranspose) = true -> X.

Lemma finalExtract_spec post st :
  (width imageBuffer <= width (img st))%Z ->
  (height imageBuffer <= height (img st))%Z ->
  let reg := final_region (width (img st)) (height (img st))
                          (width imageBuffer) (height imageBuffer) in
  let fill := Resize (width imageBuffer) (height imageBuffer) Fill in
  post tt (State (filtered fill (extracted reg (img st)))
                 (entropy st) (draws st)
                 ((calls st ++ [CExtract reg]) ++ [CFilter fill])) ->
  wp X (finalExtract (width imageBuffer) (height imageBuffer)) post st.
Proof.
  intros Lw Lh reg fill Q. unfold finalExtract.
  apply wp_bind, wp_metadata. cbn [fst snd].
  apply wp_bind. apply wp_extract.
  - intros N. exfalso. apply N. now apply final_region_ok.
  - intros _. apply wp_apply; [|intros V; discriminate V|exact Q].
    apply andb_true_intro. split; apply Z.ltb_lt; assumption.
Qed.

Lemma applyTransformations_spec post st :
  (forall out st',
      out = img st' ->
      width out = width imageBuffer -> height out = height imageBuffer ->
      files_written st' = (files_written st ++ [out_png; out_png; out_png])%list ->
      post out st') ->
  wp X (applyTransformations imageBuffer cfg) post st.
Proof.
  intros Q. unfold applyTransformations. cbv zeta.
  apply wp_bind, wp_create.
  apply wp_bind. apply wp_composite; cbn [img create_raster width height]; try lia.
  intros r0 Rw Rh.
  apply wp_bind, wp_toBuffer.
  apply wp_bind. apply stage_spec; try assumption; try exact Rw; try exact Rh.
  intros s1 F1 [W1 H1].
  apply wp_bind. apply stage_spec; try assumption. intros s2 F2 [W2 H2].
  apply wp_bind. apply stage_spec; try assumption. intros s3 F3 [W3 H3].
  apply wp_bind. apply stage_spec; try assumption. intros s4 F4 [W4 H4].
  apply wp_bind. apply stage_spec; try assumption. intros s5 F5 [W5 H5].
  apply wp_bind. apply stage_spec; try assumption. intros s6 F6 [W6 H6].
  apply wp_bind, wp_toFile.
  apply wp_bind. apply stage_spec; try assumption. intros s7 F7 [W7 H7].
  apply wp_bind. apply stage_spec; try assumption. intros s8 F8 [W8 H8].
  apply wp_bind, wp_toFile.
  apply wp_bind. apply stage_spec; try assumption. intros s9 F9 O9.
  apply zoom_outcome_covers in O9; try assumption.
  destruct O9 as [W9 H9].
  apply wp_bind, wp_toFile.
  apply wp_bind, wp_toBuffer.
  apply wp_bind. apply finalExtract_spec; [exact W9|exact H9|].
  apply wp_bind, wp_toBuffer.
  apply wp_current. apply Q; [reflexivity|reflexivity|reflexivity|].
  revert F1 F2 F3 F4 F5 F6 F7 F8 F9. files_unchanged.
  intros E1 E2 E3 E4 E5 E6 E7 E8 E9.
  rewrite E9, E8, E7, E6, E5, E4, E3, E2, E1.
  now rewrite <- !app_assoc.
Qed.

End PipelineRules.

(* ------------------------------------------------------------------ *)
(** ** Output dimensions *)

(** C1. For an input image of positive width and height and any
    configuration: the final extractor, run on a canvas at least as large as
    the input, extracts the region of the input's size at
    [left = max(0, floor(canvas_w / 2) - floor(w / 2))] (top alike) and
    resizes it to the input's size; every image the pipeline returns has the
    width and the height of the input; and the pipeline does return an image
    whenever the library accepts the filters and transpose is disabled. *)
Theorem output_has_input_dimensions `{Codec}
        (cfg : TransformationConfig) (imageBuffer : raster) (rnd : nat -> Q) :
  (0 < width imageBuffer)%Z -> (0 < height imageBuffer)%Z ->
  (forall st,
      (width imageBuffer <= width (img st))%Z ->
      (height imageBuffer <= height (img st))%Z ->
      exists st',
        finalExtract (width imageBuffer) (height imageBuffer) st = inr (tt, st')
        /\ width (img st') = width imageBuffer
        /\ height (img st') = height imageBuffer
        /\ calls st'
           = (calls st
                ++ [CExtract
                      (Region
                         (Z.max 0 (width (img st) / 2 - width imageBuffer / 2))
                         (Z.max 0 (height (img st) / 2 - height imageBuffer / 2))
                         (width imageBuffer) (height imageBuffer));
                    CFilter (Resize (width imageBuffer) (height imageBuffer)
                                    Fill)])%list)
  /\ (forall out st',
         createImageAugmentor cfg imageBuffer rnd = inr (out, st') ->
         width out = width imageBuffer /\ height out = height imageBuffer)
  /\ ((forall f, accepts f = true) ->
      range cfg ETranspose == 0 ->
      exists out st',
        createImageAugmentor cfg imageBuffer rnd = inr (out, st')
        /\ width out = width imageBuffer /\ height out = height imageBuffer).
Proof.
  intros Pw Ph. split; [|split].
  - intros st Lw Lh.
    destruct (wp_total (finalExtract (width imageBuffer) (height imageBuffer))
                (fun _ st' =>
                   st' = State
                           (filtered
                              (Resize (width imageBuffer) (height imageBuffer) Fill)
                              (extracted
                                 (final_region (width (img st)) (height (img st))
                                               (width imageBuffer)
                                               (height imageBuffer))
                                 (img st)))
                           (entropy st) (draws st)
                           ((calls st
                               ++ [CExtract
                                     (final_region (width (img st))
                                                   (height (img st))
                                                   (width imageBuffer)
                                                   (height imageBuffer))])
                              ++ [CFilter (Resize (width imageBuffer)
                                                  (height imageBuffer) Fill)]))
                st) as ([] & st' & Run & ->).
    { now apply finalExtract_spec. }
    eexists. split; [exact Run|].
    cbn [img calls width height filtered filtered_size fst snd].
    repeat split.
    rewrite <- app_assoc. unfold final_region. now rewrite !floor_half.
  - intros out st' Run.
    apply (wp_partial (applyTransformations imageBuffer cfg)
             (fun out _ => width out = width imageBuffer
                           /\ height out = height imageBuffer)
             (State imageBuffer rnd 0 []) out st'); [|exact Run].
    apply applyTransformations_spec; try assumption; try exact (fun _ _ => I).
    + exact (fun _ => I).
    + intros o s _ Ew Eh _. now split.
  - intros Acc Off.
    apply (wp_total (applyTransformations imageBuffer cfg)
             (fun out _ => width out = width imageBuffer
                           /\ height out = height imageBuffer)
             (State imageBuffer rnd 0 [])).
    apply applyTransformations_spec; try assumption.
    + intros f V. destruct f; cbn in V; try discriminate V;
        rewrite Acc in V; discriminate V.
    + intros T. rewrite (truthy_zero _ Off) in T. discriminate T.
    + intros o s _ Ew Eh _. now split.
Qed.

Lemma output_has_input_dimensions_witness :
  exists out st',
    createImageAugmentor example_config (ramp 4 3) (fun _ => 3 # 4)
      = inr (out, st')
    /\ width out = 4%Z /\ height out = 3%Z.
Proof.
  destruct (createImageAugmentor example_config (ramp 4 3) (fun _ => 3 # 4))
    as [e|[out st']] eqn:Run.
  - vm_compute in Run. discriminate Run.
  - exists out, st'. split; [reflexivity|].
    apply (proj1 (proj2 (@output_has_input_dimensions reference_codec
                           example_config (ramp 4 3) (fun _ => 3 # 4)
                           eq_refl eq_refl)) out st' Run).
Defined.

(* ------------------------------------------------------------------ *)
(** ** Files written by an invocation *)

(** C9 does not hold of the code.  Every invocation that returns an image has
    written the file [out.png] three times: after the shear block, after the
    transpose block and after the zoom block.  The path is the same for every
    image and every configuration. *)
Theorem invocation_writes_out_png `{Codec}
        (cfg : TransformationConfig) (imageBuffer : raster) (rnd : nat -> Q)
        (out : raster) (st' : state) :
  (0 < width imageBuffer)%Z -> (0 < height imageBuffer)%Z ->
  createImageAugmentor cfg imageBuffer rnd = inr (out, st') ->
  files_written st' = ["out.png"; "out.png"; "out.png"]%string.
Proof.
  intros Pw Ph Run.
  apply (wp_partial (applyTransformations imageBuffer cfg)
           (fun _ s => files_written s
                       = ["out.png"; "out.png"; "out.png"]%string)
           (State imageBuffer rnd 0 []) out st'); [|exact Run].
  apply applyTransformations_spec; try assumption; try exact (fun _ _ => I).
  - exact (fun _ => I).
  - intros o s _ _ _ F. exact F.
Qed.

Lemma invocation_writes_out_png_witness :
  exists out st',
    createImageAugmentor no_config (ramp 2 3) (fun _ => 0) = inr (out, st')
    /\ files_written st' = ["out.png"; "out.png"; "out.png"]%string.
Proof.
  destruct (createImageAugmentor no_config (ramp 2 3) (fun _ => 0))
    as [e|[out st']] eqn:Run.
  - vm_compute in Run. discriminate Run.
  - exists out, st'. split; [reflexivity|].
    apply (@invocation_writes_out_png reference_codec no_config (ramp 2 3)
             (fun _ => 0) out st' eq_refl eq_refl Run).
Defined.

(* ------------------------------------------------------------------ *)
(** ** Canvas size through the geometric stages *)




(* ------------------------------------------------------------------ *)
(** ** Transpose offsets *)

(** C5 does not hold of the code.  With a 10 x 10 image (working canvas
    30 x 30), [transposeRange = 50] and a random value of 0, the sampled
    offset is -50; [Math.min(-50, 30)] leaves it at -50, the new width is
    [30 - 50 = -20], and [extract] is called with that width and rejects
    it. *)
Theorem negative_offset_is_not_capped :
  transposeOffset 50 0 = (-50)%Z
  /\ Z.min (transposeOffset 50 0) 30 = (-50)%Z
  /\ (30 - Z.abs (Z.min (transposeOffset 50 0) 30) = -20)%Z
  /\ createImageAugmentor (only ETranspose 50) (ramp 10 10) (fun _ => 0)
     = inl (InvalidParameter (CExtract (Region 0 0 (-20) 30))).
Proof.
  repeat split; vm_compute; reflexivity.
Qed.

(** A capped offset fails later: with [transposeRange = 5] and random values
    of 3/4 the offsets are 3, [transposeImage] leaves a canvas 27 pixels wide,
    and [cropToCenter] asks for 30 columns of it. *)
Example shifted_canvas_is_too_narrow :
  transposeOffset 5 (3 # 4) = 3%Z
  /\ createImageAugmentor (only ETranspose 5) (ramp 10 10) (fun _ => 3 # 4)
     = inl (BadExtractArea (Region 0 0 30 30) 27 30).
Proof.
  split; vm_compute; reflexivity.
Qed.

(* ------------------------------------------------------------------ *)
(** ** [transposeImage] *)






(* ------------------------------------------------------------------ *)
(** * Further properties of the code *)

(** ** The sampler *)

Lemma spread_zero_iff (u r : Q) : ~ r == 0 -> (spread u r == 0 <-> u == 1 # 2).
Proof.
  intros R. unfold spread. split; intros E.
  - assert (F : (u * 2 - 1) * r == 0) by (rewrite <- E; ring).
    apply Qmult_integral in F. destruct F as [F|F]; [lra|contradiction].
  - rewrite E. ring.
Qed.

(** X1. Whatever the sign of the range, [getRandomInRange] returns a value
    whose magnitude is at most the magnitude of the range; it is 0 exactly
    when the random value is one half (for a range other than 0). *)
Theorem getRandomInRange_magnitude (r : Q) (st : state) :
  0 <= entropy st (draws st) -> entropy st (draws st) < 1 ->
  exists v,
    getRandomInRange r st
      = inr (v, State (img st) (entropy st) (S (draws st)) (calls st))
    /\ Qabs v <= Qabs r
    /\ (~ r == 0 -> (v == 0 <-> entropy st (draws st) == 1 # 2)).
Proof.
  intros U0 U1.
  exists (spread (entropy st (draws st)) r).
  split; [reflexivity|]. split; [|now apply spread_zero_iff].
  set (u := entropy st (draws st)) in *.
  assert (E : spread u r == u * (r - - r) + - r) by (unfold spread; ring).
  apply Qabs_Qle_condition. rewrite E.
  destruct (Qlt_le_dec r 0) as [Neg|Pos].
  - rewrite (Qabs_neg r) by lra.
    destruct (interpolate_reversed u (- r) r) as [Lo Hi]; try assumption; lra.
  - rewrite (Qabs_pos r) by assumption.
    destruct (interpolate_between u (- r) r) as [Lo Hi]; try assumption; lra.
Qed.

Lemma getRandomInRange_magnitude_witness :
  exists v,
    getRandomInRange (- (30)) (State (ramp 2 2) (fun _ => 1 # 4) 0 [])
      = inr (v, State (ramp 2 2) (fun _ => 1 # 4) 1 [])
    /\ Qabs v <= Qabs (- (30))
    /\ (~ - (30) == 0 -> (v == 0 <-> (1 # 4) == 1 # 2)).
Proof.
  apply (getRandomInRange_magnitude (- (30))
           (State (ramp 2 2) (fun _ => 1 # 4) 0 [])); simpl; lra.
Defined.

(** X2. Whatever the range and the random value, the sigma given to [blur]
    lies between 0.3 and 1000, the values the library accepts. *)
Theorem blurSigma_is_always_accepted (r u : Q) :
  (3 # 10) <= blurSigma r u
  /\ blurSigma r u <= 1000
  /\ @accepts reference_codec (Blur (blurSigma r u)) = true.
Proof.
  assert (Lo : (3 # 10) <= blurSigma r u).
  { unfold blurSigma, Math.max. apply Q.le_max_l. }
  assert (Hi : blurSigma r u <= 1000).
  { unfold blurSigma, Math.max, Math.min.
    apply Q.max_lub; [discriminate|apply Q.le_min_r]. }
  split; [exact Lo|]. split; [exact Hi|].
  cbn [accepts reference_codec].
  apply andb_true_intro. split; now apply Qle_bool_iff.
Qed.

Lemma transposeOffset_within_integral_range_witness :
  (- (10) <= transposeOffset (inject_Z 10) (3 # 4) <= 10)%Z.
Proof.
  apply (transposeOffset_within_integral_range 10 (3 # 4)); [lia|lra|lra].
Defined.

(* ------------------------------------------------------------------ *)
(** ** Failing runs *)

Lemma wp_fails {A} (m : M A) st :
  wp True m (fun _ _ => False) st -> exists e, m st = inl e.
Proof.
  unfold wp. destruct (m st) as [e|[a st']].
  - intros _. now exists e.
  - intros F. destruct F.
Qed.

Lemma wp_returned {A} (m : M A) post st a st' :
  m st = inr (a, st') -> post a st' -> wp True m post st.
Proof. unfold wp. intros E P. now rewrite E. Qed.

(** ** [transposeImage] and [cropToCenter]: when they fail *)

(** X3. [transposeImage] fails, whatever the image, as soon as one offset
    reaches the canvas dimension in magnitude: [dx <= -W], [dx >= W],
    [dy <= -H] or [dy >= H].  The cap [Math.min(dx, W)] leaves a width of 0 on
    the positive side and nothing caps the negative side. *)
Theorem transposeImage_fails_at_canvas_size `{codec : Codec}
        (dx dy W H : Z) (bg : color) (st : state) :
  (dx <= - W \/ W <= dx \/ dy <= - H \/ H <= dy)%Z ->
  exists e, transposeImage dx dy W H bg st = inl e.
Proof.
  intros Out. apply wp_fails.
  unfold transposeImage. cbv zeta.
  set (tx := Z.min dx W). set (ty := Z.min dy H).
  destruct (Z_le_gt_dec (W - Z.abs tx) 0) as [Wx|Wx].
  - (* no column is left *)
    apply wp_bind.
    destruct (0 <=? tx)%Z.
    + apply wp_bind. apply wp_extract; [exact (fun _ => I)|].
      intros (_ & _ & Pw & _). cbn [rwidth] in Pw. lia.
    + apply wp_bind. apply wp_call_covered; [exact I|intros r1].
      apply wp_extract; [exact (fun _ => I)|].
      intros (_ & _ & Pw & _). cbn [rwidth] in Pw. lia.
  - (* no row is left *)
    assert (Hy : (H - Z.abs ty <= 0)%Z) by (unfold tx, ty in *; lia).
    apply wp_bind.
    eapply wp_mono with (post' := fun _ _ => True).
    + unfold wp. now destruct (_ st) as [e|[a s]].
    + intros _ s1 _. cbv beta.
      destruct (0 <=? ty)%Z.
      * apply wp_bind. apply wp_extract; [exact (fun _ => I)|].
        intros (_ & _ & _ & Ph & _). cbn [rheight] in Ph. lia.
      * apply wp_bind. apply wp_call_covered; [exact I|intros r1].
        apply wp_extract; [exact (fun _ => I)|].
        intros (_ & _ & _ & Ph & _). cbn [rheight] in Ph. lia.
Qed.

Lemma transposeImage_fails_at_canvas_size_witness :
  exists e,
    transposeImage (-50) 0 30 30 white
                   (State (create_raster 30 30 white) (fun _ => 0) 0 [])
    = inl e.
Proof.
  apply (@transposeImage_fails_at_canvas_size reference_codec (-50) 0 30 30
           white (State (create_raster 30 30 white) (fun _ => 0) 0 [])).
  left. lia.
Defined.

(** X4. [cropToCenter] returns exactly when the requested size is positive
    and no larger than the image; the image it returns has the requested
    size and holds the flattened top-left corner of the image it was given.
    Otherwise it fails. *)
Theorem cropToCenter_returns_iff_it_fits `{Codec} (w h : Z) (st : state) :
  ((0 < w <= width (img st))%Z /\ (0 < h <= height (img st))%Z ->
   cropToCenter w h st
   = inr (tt, State (filtered Flatten (extracted (Region 0 0 w h) (img st)))
                    (entropy st) (draws st)
                    ((calls st ++ [CExtract (Region 0 0 w h)])
                       ++ [CFilter Flatten]))
   /\ width (filtered Flatten (extracted (Region 0 0 w h) (img st))) = w
   /\ height (filtered Flatten (extracted (Region 0 0 w h) (img st))) = h)
  /\ (~ ((0 < w <= width (img st))%Z /\ (0 < h <= height (img st))%Z) ->
      exists e, cropToCenter w h st = inl e).
Proof.
  split.
  - intros [Fw Fh]. split; [|split; reflexivity].
    destruct (wp_total_unit (cropToCenter w h)
                (fun s => s = State (filtered Flatten
                                       (extracted (Region 0 0 w h) (img st)))
                                    (entropy st) (draws st)
                                    ((calls st ++ [CExtract (Region 0 0 w h)])
                                       ++ [CFilter Flatten])) st)
      as (s & Run & ->); [|exact Run].
    unfold cropToCenter. rewrite center_region_origin.
    apply wp_bind. apply wp_extract.
    + intros N. apply N. red. cbn [left top rwidth rheight]. lia.
    + intros _. apply wp_apply; [reflexivity|intros V; discriminate V|reflexivity].
  - intros N. apply wp_fails.
    unfold cropToCenter. rewrite center_region_origin.
    apply wp_bind. apply wp_extract; [exact (fun _ => I)|].
    intros (_ & _ & Pw & Ph & Fw & Fh). cbn [left top rwidth rheight] in *.
    exfalso. apply N. lia.
Qed.

Lemma cropToCenter_returns_iff_it_fits_witness :
  cropToCenter 2 2 (State (ramp 3 3) (fun _ => 0) 0 [])
  = inr (tt, State (filtered Flatten (extracted (Region 0 0 2 2) (ramp 3 3)))
                   (fun _ => 0) 0
                   [CExtract (Region 0 0 2 2); CFilter Flatten]).
Proof.
  apply (proj1 (@cropToCenter_returns_iff_it_fits reference_codec 2 2
                  (State (ramp 3 3) (fun _ => 0) 0 []))).
  cbn. lia.
Defined.




(* ------------------------------------------------------------------ *)
(** ** Random values read by an invocation *)

(** Runs a computation whose failures need no attention, call by call. *)
Ltac run_covered :=
  repeat match goal with
         | |- wp True (bind _ _) _ _ => apply wp_bind
         | |- wp True (ret _) _ _ => apply wp_ret
         | |- wp True Math_random _ _ => apply wp_random
         | |- wp True (getRandomInRange _) _ _ => apply wp_getRandomInRange
         | |- wp True metadata _ _ => apply wp_metadata
         | |- wp True (sharp_call _ _) _ _ =>
             apply wp_call_covered; [exact I|intros ?]
         | |- wp True (fun _ => inl _) _ _ => exact I
         | |- wp True (if ?b then _ else _) _ _ => destruct b
         | |- wp True (match ?o with Some _ => _ | None => _ end) _ _ =>
             destruct o
         | |- _ => progress cbv beta
         end.

Ltac unfold_methods :=
  unfold cropToCenter, transposeImage, Unpadded.extract_at,
         blur, sharpen, modulate, affine, rotate, resize, flatten,
         extract, extend, toBuffer, toFile, create, composite, apply;
  cbv zeta.

Ltac counted :=
  cbn [draws entropy calls img]; split; [lia|reflexivity].

Section Reads.

Context `{Codec}.
Variable cfg : TransformationConfig.

Lemma stage_reads (w h W H0 : Z) (e : effect) :
  reads (stage cfg w h W H0 e) (cost cfg e).
Proof.
  intros st. unfold cost.
  destruct e; unfold stage; cbv zeta;
    match goal with
    | |- context [truthy ?r] => destruct (truthy r)
    end;
    unfold_methods; run_covered; counted.
Qed.

Lemma unpadded_stage_reads (w h : Z) (e : effect) :
  reads (Unpadded.stage cfg w h e) (cost cfg e).
Proof.
  intros st. unfold cost.
  destruct e; unfold Unpadded.stage; cbv zeta;
    match goal with
    | |- context [truthy ?r] => destruct (truthy r)
    end;
    unfold_methods; run_covered; counted.
Qed.

Lemma reads_bind {A B} (m : M A) (k : A -> M B) (a b : nat) :
  reads m a -> (forall x, reads (k x) b) -> reads (bind m k) (a + b).
Proof.
  intros Rm Rk st. apply wp_bind.
  eapply wp_mono; [apply Rm|].
  intros x s1 [D1 E1]. cbv beta.
  eapply wp_mono; [apply Rk|].
  intros y s2 [D2 E2]. cbv beta. split; [lia|congruence].
Qed.

Lemma reads_call (c : call) (f : raster -> result raster) :
  reads (sharp_call c f) 0.
Proof. intros st. run_covered. counted. Qed.

Lemma reads_metadata : reads metadata 0.
Proof. intros st. run_covered. counted. Qed.

Lemma reads_current : reads (fun s => inr (img s, s)) 0.
Proof. intros st. apply wp_current. counted. Qed.

Lemma applyTransformations_reads (imageBuffer : raster) :
  reads (applyTransformations imageBuffer cfg) (total_cost cfg).
Proof.
  unfold applyTransformations, finalExtract. cbv zeta.
  unfold_methods.
  assert (E : total_cost cfg
              = (0 + (0 + (0 + (cost cfg EBlur + (cost cfg ESharpen
                 + (cost cfg EBrightness + (cost cfg ESaturation
                 + (cost cfg EContrast + (cost cfg EShear + (0
                 + (cost cfg ERotation + (cost cfg ETranspose + (0
                 + (cost cfg EZoom + (0 + (0 + ((0 + (0 + 0)) + (0 + 0)
                   )))))))))))))))))%nat)
    by (unfold total_cost; lia).
  rewrite E.
  repeat first
         [ apply reads_current
         | apply reads_call
         | apply reads_metadata
         | apply stage_reads
         | apply reads_bind; [|intros ?] ].
Qed.

Lemma unpadded_applyTransformations_reads (imageBuffer : raster) :
  reads (Unpadded.applyTransformations imageBuffer cfg) (total_cost cfg).
Proof.
  unfold Unpadded.applyTransformations. cbv zeta.
  unfold_methods.
  assert (E : total_cost cfg
              = (0 + (0 + (cost cfg ETranspose + (cost cfg EZoom
                 + (cost cfg EShear + (cost cfg ERotation + (cost cfg EBlur
                 + (cost cfg ESharpen + (cost cfg EBrightness
                 + (cost cfg ESaturation + (cost cfg EContrast
                 + (0 + (0 + (0 + 0))))))))))))))%nat)
    by (unfold total_cost; lia).
  rewrite E.
  repeat first
         [ apply reads_current
         | apply reads_call
         | apply reads_metadata
         | apply unpadded_stage_reads
         | apply reads_bind; [|intros ?] ].
Qed.

End Reads.

(** X6. An invocation of the padded pipeline that returns has read one random
    value for each enabled effect and a second one for shear and for
    transpose, no more; the entropy source itself is untouched. *)
Theorem invocation_reads_per_enabled_effect `{Codec}
        (cfg : TransformationConfig) (imageBuffer : raster) (rnd : nat -> Q)
        (out : raster) (st' : state) :
  createImageAugmentor cfg imageBuffer rnd = inr (out, st') ->
  draws st' = total_cost cfg /\ entropy st' = rnd.
Proof.
  intros Run.
  exact (wp_partial _ _ _ _ _
           (applyTransformations_reads cfg imageBuffer
              (State imageBuffer rnd 0 [])) Run).
Qed.

Lemma invocation_reads_per_enabled_effect_witness :
  exists out st',
    createImageAugmentor example_config (ramp 4 3) (fun _ => 3 # 4)
      = inr (out, st')
    /\ draws st' = 9%nat.
Proof.
  destruct (createImageAugmentor example_config (ramp 4 3) (fun _ => 3 # 4))
    as [e|[out st']] eqn:Run.
  - vm_compute in Run. discriminate Run.
  - exists out, st'. split; [reflexivity|].
    exact (proj1 (@invocation_reads_per_enabled_effect reference_codec
                    example_config (ramp 4 3) (fun _ => 3 # 4) out st' Run)).
Defined.

(* ------------------------------------------------------------------ *)
(** ** The variant without canvas padding *)

Lemma wp_const {A} (X P : Prop) (m : M A) st :
  X -> P -> wp X m (fun _ _ => P) st.
Proof. unfold wp. intros Hx Hp. now destruct (m st) as [e|[a s]]. Qed.

Lemma as_count_some (q : Q) (z : Z) :
  as_count q = Some z -> q == inject_Z z /\ (0 <= z)%Z.
Proof.
  unfold as_count.
  destruct (Qeq_bool q (inject_Z (Qfloor q))) eqn:E; [|discriminate].
  destruct (0 <=? Qfloor q)%Z eqn:P; [|discriminate].
  cbn [andb]. intros S. injection S as <-.
  split; [now apply Qeq_bool_iff|now apply Z.leb_le].
Qed.

Lemma truthy_nonzero (x : Q) : truthy x = true -> ~ x == 0.
Proof.
  unfold truthy. intros T E. apply Qeq_bool_iff in E. rewrite E in T.
  discriminate T.
Qed.

Lemma wp_apply_checked `{Codec} (X : Prop) f post st :
  (positive_size f = false -> X) ->
  (validated f = false -> X) ->
  post tt (State (filtered f (img st)) (entropy st) (draws st)
                 (calls st ++ [CFilter f])) ->
  wp X (apply f) post st.
Proof.
  intros P V Q. destruct (positive_size f) eqn:E.
  - now apply wp_apply.
  - apply wp_call. unfold apply_filter. rewrite E. cbn [negb]. now apply P.
Qed.

Section UnpaddedRules.

Context `{Codec}.
Variable X : Prop.
Variable cfg : TransformationConfig.
Variables w h : Z.
Hypothesis w_pos : (0 < w)%Z.
Hypothesis h_pos : (0 < h)%Z.
Hypothesis rejected : forall f, validated f = false -> X.
Hypothesis transposing : truthy (range cfg ETranspose) = true -> X.

Ltac unpadded_filter Q rejected :=
  match goal with
  | |- context [truthy ?r] => destruct (truthy r)
  end;
  [ apply wp_bind; first [apply wp_random | apply wp_getRandomInRange];
    apply wp_apply; [reflexivity|apply rejected|];
    apply Q; [reflexivity|files_unchanged]
  | apply wp_ret; apply Q; reflexivity ].

Lemma unpadded_stage_spec (e : effect) post st :
  (truthy (range cfg EZoom) = true ->
   X \/ (0 <= range cfg EZoom /\ forall n, 0 <= entropy st n)) ->
  (forall st', entropy st' = entropy st ->
               files_written st' = files_written st -> post tt st') ->
  wp X (Unpadded.stage cfg w h e) post st.
Proof.
  intros Zoom Q.
  destruct e; unfold Unpadded.stage; cbv zeta.
  - (* shear *)
    destruct (truthy (range cfg EShear)).
    + apply wp_bind, wp_getRandomInRange. apply wp_bind, wp_getRandomInRange.
      apply wp_apply; [reflexivity|apply rejected|].
      apply Q; [reflexivity|files_unchanged].
    + apply wp_ret. apply Q; reflexivity.
  - unpadded_filter Q rejected.
  - unpadded_filter Q rejected.
  - (* zoom *)
    destruct (truthy (range cfg EZoom)).
    + apply wp_bind, wp_random.
      apply wp_apply_checked; [|apply rejected|apply Q; [reflexivity|files_unchanged]].
      intros Bad. destruct (Zoom eq_refl) as [Cov|[Rz En]]; [exact Cov|].
      exfalso. cbn [entropy draws] in Bad.
      assert (F : 0 <= entropy st (draws st) * range cfg EZoom)
        by (apply Qmult_le_0_compat; [apply En|exact Rz]).
      pose proof (scaled_grows w _ ltac:(lia) F) as Gw.
      pose proof (scaled_grows h _ ltac:(lia) F) as Gh.
      unfold Unpadded.zoomScale, positive_size in Bad.
      apply andb_false_iff in Bad.
      destruct Bad as [Bad|Bad]; apply Z.ltb_ge in Bad; lia.
    + apply wp_ret. apply Q; reflexivity.
  - unpadded_filter Q rejected.
  - unpadded_filter Q rejected.
  - unpadded_filter Q rejected.
  - unpadded_filter Q rejected.
  - (* transpose *)
    destruct (truthy (range cfg ETranspose)).
    + pose proof (transposing eq_refl) as Cov.
      apply wp_bind, wp_getRandomInRange. apply wp_bind, wp_getRandomInRange.
      unfold Unpadded.extract_at.
      destruct (as_count _); [|exact Cov].
      destruct (as_count _); [|exact Cov].
      apply wp_extract; [intros _; exact Cov|intros _].
      apply Q; [reflexivity|files_unchanged].
    + apply wp_ret. apply Q; reflexivity.
Qed.

End UnpaddedRules.

Section UnpaddedPipeline.

Context `{Codec}.
Variable X : Prop.
Variable cfg : TransformationConfig.
Variable imageBuffer : raster.
Hypothesis rejected : forall f, validated f = false -> X.
Hypothesis transposing : truthy (range cfg ETranspose) = true -> X.

Ltac zoom_condition Zoom :=
  let T := fresh "T" in
  let Cov := fresh "Cov" in
  let Rz := fresh "Rz" in
  let En := fresh "En" in
  let n := fresh "n" in
  intros T; destruct (Zoom T) as [Cov|[Rz En]];
  [ left; exact Cov
  | right; split; [exact Rz|];
    cbn [entropy] in *;
    intros n;
    repeat match goal with
           | G : entropy _ = _ |- _ => rewrite G; clear G
           end;
    apply En ].

Ltac next_stage Zoom E F :=
  apply wp_bind; apply unpadded_stage_spec; try assumption;
  lazymatch goal with
  | |- _ = true -> _ => zoom_condition Zoom
  | |- _ => intros ? E F
  end.

Lemma unpadded_spec post st :
  (0 < width (img st))%Z -> (0 < height (img st))%Z ->
  (truthy (range cfg EZoom) = true ->
   X \/ (0 <= range cfg EZoom /\ forall n, 0 <= entropy st n)) ->
  (forall out st',
      out = img st' ->
      width out = width (img st) -> height out = height (img st) ->
      files_written st' = files_written st -> post out st') ->
  wp X (Unpadded.applyTransformations imageBuffer cfg) post st.
Proof.
  intros Pw Ph Zoom Q. unfold Unpadded.applyTransformations.
  apply wp_bind. apply wp_apply; [reflexivity|apply rejected|].
  apply wp_bind, wp_metadata.
  cbn [fst snd img width height filtered filtered_size].
  next_stage Zoom E1 F1.
  next_stage Zoom E2 F2.
  next_stage Zoom E3 F3.
  next_stage Zoom E4 F4.
  next_stage Zoom E5 F5.
  next_stage Zoom E6 F6.
  next_stage Zoom E7 F7.
  next_stage Zoom E8 F8.
  next_stage Zoom E9 F9.
  apply wp_bind, wp_toBuffer.
  apply wp_bind. apply wp_apply; [|apply rejected|].
  { apply andb_true_intro. split; apply Z.ltb_lt; assumption. }
  apply wp_bind, wp_toBuffer.
  apply wp_current. apply Q; [reflexivity|reflexivity|reflexivity|].
  revert F1 F2 F3 F4 F5 F6 F7 F8 F9. files_unchanged.
  intros G1 G2 G3 G4 G5 G6 G7 G8 G9.
  now rewrite G9, G8, G7, G6, G5, G4, G3, G2, G1.
Qed.

End UnpaddedPipeline.

(** X7. In the variant without padding, every image an invocation returns
    has the width and the height of the input, whatever effects ran; and an
    invocation does return when the library accepts the filters, transpose is
    disabled, the zoom range is not negative and the random values are not
    negative. *)
Theorem unpadded_output_has_input_dimensions `{Codec}
        (cfg : TransformationConfig) (imageBuffer : raster) (rnd : nat -> Q) :
  (0 < width imageBuffer)%Z -> (0 < height imageBuffer)%Z ->
  (forall out st',
      Unpadded.createImageAugmentor cfg imageBuffer rnd = inr (out, st') ->
      width out = width imageBuffer /\ height out = height imageBuffer)
  /\ ((forall f, accepts f = true) ->
      range cfg ETranspose == 0 ->
      0 <= range cfg EZoom ->
      (forall n, 0 <= rnd n) ->
      exists out st',
        Unpadded.createImageAugmentor cfg imageBuffer rnd = inr (out, st')
        /\ width out = width imageBuffer /\ height out = height imageBuffer).
Proof.
  intros Pw Ph. split.
  - intros out st' Run.
    apply (wp_partial (Unpadded.applyTransformations imageBuffer cfg)
             (fun out _ => width out = width imageBuffer
                           /\ height out = height imageBuffer)
             (State imageBuffer rnd 0 []) out st'); [|exact Run].
    apply unpadded_spec; try assumption; try exact (fun _ _ => I).
    + exact (fun _ => I).
    + intros _. left. exact I.
    + intros o s _ Ew Eh _. now split.
  - intros Acc Off Rz En.
    apply (wp_total (Unpadded.applyTransformations imageBuffer cfg)
             (fun out _ => width out = width imageBuffer
                           /\ height out = height imageBuffer)
             (State imageBuffer rnd 0 [])).
    apply unpadded_spec; try assumption.
    + intros f V. destruct f; cbn in V; try discriminate V;
        rewrite Acc in V; discriminate V.
    + intros T. rewrite (truthy_zero _ Off) in T. discriminate T.
    + intros _. right. split; [exact Rz|exact En].
    + intros o s _ Ew Eh _. now split.
Qed.

Lemma unpadded_output_has_input_dimensions_witness :
  exists out st',
    Unpadded.createImageAugmentor example_config (ramp 4 3) (fun _ => 3 # 4)
      = inr (out, st')
    /\ width out = 4%Z /\ height out = 3%Z.
Proof.
  destruct (Unpadded.createImageAugmentor example_config (ramp 4 3)
                                          (fun _ => 3 # 4))
    as [e|[out st']] eqn:Run.
  - vm_compute in Run. discriminate Run.
  - exists out, st'. split; [reflexivity|].
    apply (proj1 (@unpadded_output_has_input_dimensions reference_codec
                    example_config (ramp 4 3) (fun _ => 3 # 4)
                    eq_refl eq_refl) out st' Run).
Defined.

Section WritesNothing.

Context `{Codec}.

Lemma writes_nothing_bind {A B} (m : M A) (k : A -> M B) :
  writes_nothing m -> (forall x, writes_nothing (k x)) ->
  writes_nothing (bind m k).
Proof.
  intros Wm Wk st. apply wp_bind.
  eapply wp_mono; [apply Wm|].
  intros x s1 F1. cbv beta.
  eapply wp_mono; [apply Wk|].
  intros y s2 F2. cbv beta. congruence.
Qed.

Lemma writes_nothing_call (c : call) (f : raster -> result raster) :
  written_by [c] = [] -> writes_nothing (sharp_call c f).
Proof.
  intros E st. apply wp_call_covered; [exact I|intros r].
  unfold files_written. cbn [calls].
  rewrite written_by_snoc.
  unfold written_by in E. cbn [flat_map] in E. rewrite app_nil_r in E.
  rewrite E. apply app_nil_r.
Qed.

Lemma writes_nothing_metadata : writes_nothing metadata.
Proof. intros st. apply wp_metadata. reflexivity. Qed.

Lemma writes_nothing_current : writes_nothing (fun s => inr (img s, s)).
Proof. intros st. apply wp_current. reflexivity. Qed.

Lemma unpadded_stage_writes_nothing (cfg : TransformationConfig) (w h : Z)
      (e : effect) :
  writes_nothing (Unpadded.stage cfg w h e).
Proof.
  intros st.
  destruct e; unfold Unpadded.stage; cbv zeta;
    match goal with
    | |- context [truthy ?r] => destruct (truthy r)
    end;
    unfold_methods; run_covered; files_unchanged.
Qed.

Lemma unpadded_applyTransformations_writes_nothing
      (cfg : TransformationConfig) (imageBuffer : raster) :
  writes_nothing (Unpadded.applyTransformations imageBuffer cfg).
Proof.
  unfold Unpadded.applyTransformations. cbv zeta. unfold_methods.
  repeat first
         [ apply writes_nothing_current
         | apply writes_nothing_metadata
         | apply unpadded_stage_writes_nothing
         | apply writes_nothing_call; reflexivity
         | apply writes_nothing_bind; [|intros ?] ].
Qed.

End WritesNothing.

(** X8. An invocation of the variant without padding that returns has written
    no file, and has read one random value for each enabled effect and a
    second one for shear and for transpose. *)
Theorem unpadded_invocation_writes_no_file `{Codec}
        (cfg : TransformationConfig) (imageBuffer : raster) (rnd : nat -> Q)
        (out : raster) (st' : state) :
  Unpadded.createImageAugmentor cfg imageBuffer rnd = inr (out, st') ->
  files_written st' = [] /\ draws st' = total_cost cfg.
Proof.
  intros Run. split.
  - exact (wp_partial _ _ _ _ _
             (unpadded_applyTransformations_writes_nothing cfg imageBuffer
                (State imageBuffer rnd 0 [])) Run).
  - exact (proj1 (wp_partial _ _ _ _ _
                    (unpadded_applyTransformations_reads cfg imageBuffer
                       (State imageBuffer rnd 0 [])) Run)).
Qed.

Lemma unpadded_invocation_writes_no_file_witness :
  exists out st',
    Unpadded.createImageAugmentor example_config (ramp 4 3) (fun _ => 3 # 4)
      = inr (out, st')
    /\ files_written st' = [] /\ draws st' = 9%nat.
Proof.
  destruct (Unpadded.createImageAugmentor example_config (ramp 4 3)
                                          (fun _ => 3 # 4))
    as [e|[out st']] eqn:Run.
  - vm_compute in Run. discriminate Run.
  - exists out, st'. split; [reflexivity|].
    apply (@unpadded_invocation_writes_no_file reference_codec example_config
             (ramp 4 3) (fun _ => 3 # 4) out st' Run).
Defined.

(** X9. In the variant without padding the transpose block extracts a region
    of the image's full size at the sampled offsets, which are not rounded:
    when transpose is enabled, an invocation returns only if both random
    values read for it are exactly one half, so that both offsets are 0. *)
Theorem unpadded_transpose_returns_only_unshifted `{Codec}
        (cfg : TransformationConfig) (imageBuffer : raster) (rnd : nat -> Q)
        (out : raster) (st' : state) :
  truthy (range cfg ETranspose) = true ->
  Unpadded.createImageAugmentor cfg imageBuffer rnd = inr (out, st') ->
  rnd 0%nat == 1 # 2 /\ rnd 1%nat == 1 # 2.
Proof.
  intros T Run.
  apply (wp_partial (Unpadded.applyTransformations imageBuffer cfg)
           (fun _ _ => rnd 0%nat == 1 # 2 /\ rnd 1%nat == 1 # 2)
           (State imageBuffer rnd 0 []) out st'); [|exact Run].
  clear Run. unfold Unpadded.applyTransformations.
  apply wp_bind. apply wp_apply; [reflexivity|exact (fun _ => I)|].
  apply wp_bind, wp_metadata.
  cbn [fst snd img width height filtered filtered_size].
  apply wp_bind. unfold Unpadded.stage at 1. cbv zeta. rewrite T.
  apply wp_bind, wp_getRandomInRange. apply wp_bind, wp_getRandomInRange.
  cbn [entropy draws].
  unfold Unpadded.extract_at.
  destruct (as_count (spread (rnd 0%nat) _)) as [l|] eqn:El; [|exact I].
  destruct (as_count (spread (rnd 1%nat) _)) as [t|] eqn:Et; [|exact I].
  apply wp_extract; [exact (fun _ => I)|].
  intros (Pl & Pt & _ & _ & Fw & Fh).
  cbn [img width height filtered filtered_size fst snd
           left top rwidth rheight] in *.
  apply as_count_some in El, Et. destruct El as [El _], Et as [Et _].
  assert (l = 0%Z) by lia. assert (t = 0%Z) by lia. subst l t.
  pose proof (truthy_nonzero _ T) as Nz.
  apply wp_const; [exact I|].
  split; now apply (spread_zero_iff _ _ Nz).
Qed.

Lemma unpadded_transpose_returns_only_unshifted_witness :
  exists out st',
    Unpadded.createImageAugmentor (only ETranspose 5) (ramp 4 3)
                                  (fun _ => 1 # 2)
      = inr (out, st')
    /\ (1 # 2) == 1 # 2.
Proof.
  destruct (Unpadded.createImageAugmentor (only ETranspose 5) (ramp 4 3)
                                          (fun _ => 1 # 2))
    as [e|[out st']] eqn:Run.
  - vm_compute in Run. discriminate Run.
  - exists out, st'. split; [reflexivity|].
    exact (proj1 (@unpadded_transpose_returns_only_unshifted reference_codec
                    (only ETranspose 5) (ramp 4 3) (fun _ => 1 # 2) out st'
                    eq_refl Run)).
Defined.

(* ------------------------------------------------------------------ *)
(** ** Padding and final extraction line up *)

Lemma final_region_centered (tw th w h k : Z) :
  tw = (w + 2 * k)%Z -> th = (h + 2 * k)%Z ->
  (0 <= k)%Z ->
  final_region tw th w h = Region k k w h.
Proof.
  intros -> -> K. unfold final_region. rewrite !floor_half.
  f_equal; Z.to_euclidean_division_equations; lia.
Qed.

Lemma wp_stage_skip `{Codec} (X : Prop) cfg w h W H0 e post st :
  truthy (range cfg e) = false ->
  post tt st -> wp X (stage cfg w h W H0 e) post st.
Proof.
  intros T Q. destruct e; unfold stage; cbv zeta; rewrite T; exact Q.
Qed.

Lemma wp_composite_exact `{Codec} (X : Prop) overlay t l post st :
  (l + width overlay <= width (img st))%Z ->
  (t + height overlay <= height (img st))%Z ->
  post tt (State (composited overlay t l (img st)) (entropy st) (draws st)
                 (calls st ++ [CComposite t l])) ->
  wp X (composite overlay t l) post st.
Proof.
  intros Fw Fh Q. apply wp_call. unfold composite_raster.
  assert (E : ((width (img st) <? l + width overlay)
               || (height (img st) <? t + height overlay) = false)%Z).
  { apply orb_false_intro; apply Z.ltb_ge; lia. }
  rewrite E. exact Q.
Qed.

(** X10. With every range absent or zero, an invocation on an image of
    positive size returns with any collaborator, reads no random value, and
    makes exactly these calls: create the [(w + 2p) x (h + 2p)] canvas,
    composite the input at [(p, p)], re-encode, write [out.png] three times,
    re-encode, extract the [w x h] region at [(p, p)] - the place where the
    input was composited -, resize it to [w x h] and encode. *)
Theorem identity_run `{Codec}
        (cfg : TransformationConfig) (imageBuffer : raster) (rnd : nat -> Q) :
  (0 < width imageBuffer)%Z -> (0 < height imageBuffer)%Z ->
  (forall e, truthy (range cfg e) = false) ->
  let w := width imageBuffer in
  let h := height imageBuffer in
  let p := Z.max w h in
  let canvas := create_raster (w + 2 * p) (h + 2 * p) (bgcolor cfg) in
  let region := Region p p w h in
  let out :=
    filtered Recode
      (filtered (Resize w h Fill)
         (extracted region
            (filtered Recode
               (filtered Recode (composited imageBuffer p p canvas))))) in
  createImageAugmentor cfg imageBuffer rnd
  = inr (out,
         State out rnd 0
               [CCreate (w + 2 * p) (h + 2 * p) (bgcolor cfg);
                CComposite p p; CToBuffer;
                CToFile "out.png"; CToFile "out.png"; CToFile "out.png";
                CToBuffer; CExtract region; CFilter (Resize w h Fill);
                CToBuffer]).
Proof.
  intros Pw Ph Off w h p canvas region out.
  destruct (wp_total (applyTransformations imageBuffer cfg)
              (fun o s =>
                 o = out
                 /\ s = State out rnd 0
                          [CCreate (w + 2 * p) (h + 2 * p) (bgcolor cfg);
                           CComposite p p; CToBuffer;
                           CToFile "out.png"; CToFile "out.png";
                           CToFile "out.png";
                           CToBuffer; CExtract region;
                           CFilter (Resize w h Fill); CToBuffer])
              (State imageBuffer rnd 0 [])) as (o & s & Run & -> & ->);
    [|exact Run].
  unfold applyTransformations. cbv zeta.
  apply wp_bind, wp_create.
  apply wp_bind. apply wp_composite_exact;
    [cbn [img create_raster width height]; lia
    |cbn [img create_raster width height]; lia|].
  apply wp_bind, wp_toBuffer.
  do 6 (apply wp_bind; apply wp_stage_skip; [apply Off|]).
  apply wp_bind, wp_toFile.
  do 2 (apply wp_bind; apply wp_stage_skip; [apply Off|]).
  apply wp_bind, wp_toFile.
  apply wp_bind; apply wp_stage_skip; [apply Off|].
  apply wp_bind, wp_toFile.
  apply wp_bind, wp_toBuffer.
  apply wp_bind. apply finalExtract_spec; try assumption;
    [cbn [img width height filtered filtered_size fst snd composited
              create_raster]; lia
    |cbn [img width height filtered filtered_size fst snd composited
              create_raster]; lia|].
  cbv zeta.
  cbn [img width height filtered_size fst snd entropy draws calls].
  rewrite (final_region_centered _ _ _ _ (Z.max (width imageBuffer)
                                                (height imageBuffer)));
    [|reflexivity|reflexivity|lia].
  apply wp_bind, wp_toBuffer.
  apply wp_current. split; reflexivity.
Qed.

Lemma identity_run_witness :
  exists out,
    createImageAugmentor no_config (ramp 2 3) (fun _ => 1 # 3)
    = inr (out,
           State out (fun _ => 1 # 3) 0
                 [CCreate 8 9 white; CComposite 3 3; CToBuffer;
                  CToFile "out.png"; CToFile "out.png"; CToFile "out.png";
                  CToBuffer; CExtract (Region 3 3 2 3);
                  CFilter (Resize 2 3 Fill); CToBuffer]).
Proof.
  eexists.
  apply (@identity_run reference_codec no_config (ramp 2 3) (fun _ => 1 # 3)
           eq_refl eq_refl).
  intros e. destruct e; reflexivity.
Defined.

Lemma inside_true (r : raster) (x y : Z) :
  (0 <= x < width r)%Z -> (0 <= y < height r)%Z -> inside r x y = true.
Proof.
  intros [X0 X1] [Y0 Y1]. unfold inside.
  repeat (apply andb_true_intro; split);
    first [apply Z.leb_le; assumption | apply Z.ltb_lt; assumption].
Qed.

Section RoundTrip.

Context `{Codec}.
Hypothesis faithful : lossless.

Lemma px_recode (r : raster) (x y : Z) :
  px (filtered Recode r) x y = px r x y.
Proof. destruct faithful as (L & _ & _). apply L. Qed.

Lemma px_resize_same (w h : Z) (f : fit) (r : raster) (x y : Z) :
  width r = w -> height r = h ->
  px (filtered (Resize w h f) r) x y = px r x y.
Proof. destruct faithful as (_ & L & _). apply L. Qed.

Lemma px_composited (overlay base : raster) (t l x y : Z) :
  (0 <= x - l < width overlay)%Z -> (0 <= y - t < height overlay)%Z ->
  px (composited overlay t l base) x y = px overlay (x - l) (y - t).
Proof.
  intros Rx Ry. cbn [px composited].
  rewrite (inside_true _ _ _ Rx Ry).
  destruct faithful as (_ & _ & L). apply L.
Qed.

Lemma px_extended (t b l rt : Z) (bg : color) (r : raster) (x y : Z) :
  (0 <= x - l < width r)%Z -> (0 <= y - t < height r)%Z ->
  px (extended t b l rt bg r) x y = px r (x - l) (y - t).
Proof.
  intros Rx Ry. cbn [px extended]. now rewrite (inside_true _ _ _ Rx Ry).
Qed.

(** X11. With a collaborator that loses nothing, and no effect enabled but
    zoom, an invocation whose zoom is disabled or whose sampled zoom factor is
    negative returns the input, pixel for pixel: the padded input is found
    again by the final extractor, and zoom-out, which resizes the canvas to
    its own size and pads it evenly, changes nothing in the result. *)
Theorem zoom_out_returns_the_input
        (cfg : TransformationConfig) (imageBuffer : raster) (rnd : nat -> Q) :
  (0 < width imageBuffer)%Z -> (0 < height imageBuffer)%Z ->
  (forall e, e <> EZoom -> truthy (range cfg e) = false) ->
  (truthy (range cfg EZoom) = true ->
   zoomFactor (range cfg EZoom) (rnd 0%nat) < 0) ->
  exists out st',
    createImageAugmentor cfg imageBuffer rnd = inr (out, st')
    /\ width out = width imageBuffer /\ height out = height imageBuffer
    /\ forall x y,
        (0 <= x < width imageBuffer)%Z -> (0 <= y < height imageBuffer)%Z ->
        px out x y = px imageBuffer x y.
Proof.
  intros Pw Ph Off Neg.
  apply (wp_total (applyTransformations imageBuffer cfg)
           (fun out _ => _ /\ _ /\ _) (State imageBuffer rnd 0 [])).
  unfold applyTransformations. cbv zeta.
  set (w := width imageBuffer) in *. set (h := height imageBuffer) in *.
  set (p := Z.max w h).
  apply wp_bind, wp_create.
  apply wp_bind. apply wp_composite_exact;
    [cbn [img create_raster width height]; lia
    |cbn [img create_raster width height]; lia|].
  apply wp_bind, wp_toBuffer.
  do 6 (apply wp_bind; apply wp_stage_skip; [apply Off; discriminate|]).
  apply wp_bind, wp_toFile.
  do 2 (apply wp_bind; apply wp_stage_skip; [apply Off; discriminate|]).
  apply wp_bind, wp_toFile.
  apply wp_bind.
  destruct (truthy (range cfg EZoom)) eqn:T.
  - (* zoom-out *)
    specialize (Neg eq_refl).
    unfold stage. cbv zeta. rewrite T.
    apply wp_bind, wp_toBuffer. apply wp_bind, wp_random.
    cbn [entropy draws].
    rewrite (proj2 (nonneg_false _) Neg).
    rewrite !(scaled_one _ _ (scaleFactor_one _)).
    apply wp_bind. apply wp_apply;
      [apply wrapper_positive; assumption|intros V; discriminate V|].
    apply (wp_extend False _ p p p p);
      try (cbn [mtop mbottom mleft mright]; apply half_gap_padding; lia).
    apply wp_bind, wp_toFile.
    apply wp_bind, wp_toBuffer.
    apply wp_bind. apply finalExtract_spec; try assumption;
      [cbn [img width height filtered filtered_size fst snd extended]; lia
      |cbn [img width height filtered filtered_size fst snd extended]; lia|].
    cbv zeta.
    cbn [img entropy draws calls background].
    rewrite (final_region_centered _ _ w h (2 * p));
      [|cbn [width height filtered filtered_size fst snd extended]; lia
       |cbn [width height filtered filtered_size fst snd extended]; lia
       |lia].
    apply wp_bind, wp_toBuffer.
    apply wp_current.
    split; [reflexivity|]. split; [reflexivity|].
    intros x y Rx Ry. cbn [img].
    rewrite px_recode.
    rewrite px_resize_same by reflexivity.
    cbn [px extracted left top].
    rewrite px_recode.
    rewrite px_extended
      by (cbn [width height filtered filtered_size fst snd]; lia).
    rewrite px_resize_same by reflexivity.
    rewrite !px_recode.
    rewrite px_composited by (fold w h; lia).
    f_equal; lia.
  - (* zoom disabled *)
    apply wp_stage_skip; [exact T|].
    apply wp_bind, wp_toFile.
    apply wp_bind, wp_toBuffer.
    apply wp_bind. apply finalExtract_spec; try assumption;
      [cbn [img width height filtered filtered_size fst snd composited
                create_raster]; lia
      |cbn [img width height filtered filtered_size fst snd composited
                create_raster]; lia|].
    cbv zeta.
    cbn [img width height filtered_size fst snd entropy draws calls].
    rewrite (final_region_centered _ _ w h p); [|reflexivity|reflexivity|lia].
    apply wp_bind, wp_toBuffer.
    apply wp_current.
    split; [reflexivity|]. split; [reflexivity|].
    intros x y Rx Ry. cbn [img].
    rewrite px_recode.
    rewrite px_resize_same by reflexivity.
    cbn [px extracted left top].
    rewrite !px_recode.
    rewrite px_composited by (fold w h; lia).
    f_equal; lia.
Qed.

End RoundTrip.

Lemma reference_codec_lossless : @lossless reference_codec.
Proof. repeat split. Qed.

Lemma zoom_out_returns_the_input_witness :
  exists out st',
    createImageAugmentor (only EZoom 2) (ramp 2 3) (fun _ => 0) = inr (out, st')
    /\ width out = 2%Z /\ height out = 3%Z
    /\ forall x y,
        (0 <= x < 2)%Z -> (0 <= y < 3)%Z ->
        px out x y = px (ramp 2 3) x y.
Proof.
  apply (@zoom_out_returns_the_input reference_codec reference_codec_lossless
           (only EZoom 2) (ramp 2 3) (fun _ => 0) eq_refl eq_refl).
  - intros e Ne. destruct e; try reflexivity. now contradiction Ne.
  - intros _. reflexivity.
Defined.

(** X12. In the variant without padding the zoom block scales by
    [1 + Math.random() * zoomRange]: for a range and a random value that are
    not negative it never zooms out - when it returns, the image is
    [round(w * factor) x round(h * factor)] and at least [w x h]. *)
Theorem unpadded_zoom_only_enlarges `{Codec}
        (cfg : TransformationConfig) (w h : Z) (st st' : state) :
  truthy (range cfg EZoom) = true ->
  0 <= range cfg EZoom -> 0 <= entropy st (draws st) ->
  (0 <= w)%Z -> (0 <= h)%Z ->
  Unpadded.stage cfg w h EZoom st = inr (tt, st') ->
  let factor := Unpadded.zoomScale (range cfg EZoom) (entropy st (draws st)) in
  1 <= factor
  /\ width (img st') = scaled w factor /\ height (img st') = scaled h factor
  /\ (w <= width (img st'))%Z /\ (h <= height (img st'))%Z.
Proof.
  intros T Rz U Pw Ph Run factor.
  assert (F : 0 <= entropy st (draws st) * range cfg EZoom)
    by (apply Qmult_le_0_compat; assumption).
  pose proof (scaled_grows w _ Pw F) as Gw.
  pose proof (scaled_grows h _ Ph F) as Gh.
  split; [unfold factor, Unpadded.zoomScale; lra|].
  apply (wp_partial (Unpadded.stage cfg w h EZoom)
           (fun _ s => _ /\ _ /\ _ /\ _) st tt st'); [|exact Run].
  unfold Unpadded.stage. cbv zeta. rewrite T.
  apply wp_bind, wp_random.
  apply wp_apply_checked; try exact (fun _ => I).
  cbn [img width height filtered filtered_size fst snd entropy draws].
  unfold factor, Unpadded.zoomScale. repeat split; assumption.
Qed.

Lemma unpadded_zoom_only_enlarges_witness :
  exists st',
    Unpadded.stage (only EZoom 2) 4 3 EZoom
                   (State (ramp 4 3) (fun _ => 1 # 2) 0 [])
    = inr (tt, st')
    /\ width (img st') = 8%Z /\ height (img st') = 6%Z.
Proof.
  destruct (Unpadded.stage (only EZoom 2) 4 3 EZoom
                           (State (ramp 4 3) (fun _ => 1 # 2) 0 []))
    as [e|[[] st']] eqn:Run.
  - vm_compute in Run. discriminate Run.
  - exists st'. split; [reflexivity|].
    destruct (@unpadded_zoom_only_enlarges reference_codec (only EZoom 2) 4 3
                (State (ramp 4 3) (fun _ => 1 # 2) 0 []) st'
                eq_refl ltac:(discriminate) ltac:(discriminate)
                ltac:(lia) ltac:(lia) Run)
      as (_ & Ew & Eh & _).
    split; [exact Ew|exact Eh].
Defined.
